(** * stolas: the [cases] sum-type compiler and the [trait] dispatcher

    A shallow embedding of [src/stolas/operand/cases.py] and
    [src/stolas/struct/trait.py].

    Python objects that the two modules touch are modelled by explicit
    data: classes are entries of a class table (a [World]) addressed by
    their identity, instances carry the identity they were allocated with,
    dictionaries are finite maps, and functions that mutate a dictionary or
    a class return the new state next to their result. *)

From Stdlib Require Import ZArith String Ascii List Lia.
From stdpp Require Import base option list gmap strings pretty.

Local Open Scope string_scope.
Local Open Scope list_scope.

(** ** The Python universe *)

Module Py.

(** Identity of a class object and of an instance ([id(x)]). *)
Definition tid := nat.
Definition ref := nat.

(** What may stand where the code expects a "type": a class, or a union
    object ([typing.Union[...]] or [X | Y]).  Python keeps the members of a
    union flat, and a union has at least two of them; [get_args] returns
    them. *)
Inductive tyobj :=
| TClass (c : tid)
| TUnion (a b : tid) (rest : list tid).

#[global] Instance tyobj_eq_dec : EqDecision tyobj.
Proof. solve_decision. Defined.

#[global] Instance tyobj_countable : Countable tyobj :=
  inj_countable'
    (fun t => match t with TClass c => inl c | TUnion a b r => inr (a, b, r) end)
    (fun s => match s with inl c => TClass c | inr (a, b, r) => TUnion a b r end)
    (fun t => match t with TClass _ => eq_refl | TUnion _ _ _ => eq_refl end).

(** Values.  An instance of a synthesized variant class is immutable, so it
    is carried as a value: its identity, its class and the content of its
    [_value] slot (absent for a unit variant).  [VOpaque] stands for an
    object the model does not look into (a bound method, say). *)
#[warnings="-register-all"]
Inductive pyval :=
| VNone
| VInt (z : Z)
| VStr (s : string)
| VType (t : tyobj)
| VInst (r : ref) (cls : tid) (slot : option pyval)
| VVariants (m : list (string * tyobj))
| VOpaque (what : string).

Inductive exn :=
| AttributeError (msg : string)
| TypeError (msg : string)
| IndexError (msg : string)
| NotImplementedError (msg : string).

Inductive result (A : Type) :=
| Ok (a : A)
| Raise (e : exn).
Arguments Ok {A} a.
Arguments Raise {A} e.

(** How a class was made.  The two synthesized kinds remember the closure
    variables [name] and [parent_name] of their factory. *)
Inductive class_kind :=
| Plain
| ValueVariant (name parent_name : string)
| UnitVariant (name parent_name : string).

Record class_info := {
  c_name : string;                 (* __name__ *)
  c_ancestors : list tid;          (* __mro__ without its head, the class itself *)
  c_kind : class_kind;
  c_attrs : gmap string pyval      (* attributes set on the class object *)
}.

Record World := {
  classes : gmap tid class_info;
  next_tid : tid;
  next_ref : ref
}.

(** Built-in classes. *)
Definition object_t : tid := 0.
Definition type_t : tid := 1.
Definition NoneType_t : tid := 2.
Definition int_t : tid := 3.
Definition str_t : tid := 4.
Definition dict_t : tid := 5.

Definition builtin (name : string) (anc : list tid) : class_info :=
  {| c_name := name; c_ancestors := anc; c_kind := Plain; c_attrs := ∅ |}.

Definition builtins : World :=
  {| classes :=
       <[object_t := builtin "object" []]>
       (<[type_t := builtin "type" [object_t]]>
       (<[NoneType_t := builtin "NoneType" [object_t]]>
       (<[int_t := builtin "int" [object_t]]>
       (<[str_t := builtin "str" [object_t]]>
       (<[dict_t := builtin "dict" [object_t]]> ∅)))));
     next_tid := 6;
     next_ref := 0 |}.

(** A [class] statement for a user class with a given linearization. *)
Definition define_class (name : string) (anc : list tid) (w : World) : tid * World :=
  (next_tid w,
   {| classes := <[next_tid w := builtin name anc]> (classes w);
      next_tid := S (next_tid w);
      next_ref := next_ref w |}).

(** [type(x)] *)
Definition type_of (v : pyval) : tid :=
  match v with
  | VNone => NoneType_t
  | VInt _ => int_t
  | VStr _ => str_t
  | VType _ => type_t
  | VInst _ c _ => c
  | VVariants _ => dict_t
  | VOpaque _ => object_t
  end.

(** [c.__mro__]: the class first, then its ancestors, most specific first. *)
Definition mro (w : World) (c : tid) : list tid :=
  c :: match classes w !! c with
       | Some ci => c_ancestors ci
       | None => []
       end.

(** [c.__name__] *)
Definition name_of (w : World) (c : tid) : string :=
  match classes w !! c with
  | Some ci => c_name ci
  | None => ""
  end.

Definition kind_of (w : World) (c : tid) : class_kind :=
  match classes w !! c with
  | Some ci => c_kind ci
  | None => Plain
  end.

(** Attribute lookup on a class object: the first class of the MRO whose
    namespace has the name. *)
Fixpoint lookup_in_mro (w : World) (l : list tid) (a : string) : option pyval :=
  match l with
  | [] => None
  | c :: l' =>
      match classes w !! c ≫= fun ci => c_attrs ci !! a with
      | Some v => Some v
      | None => lookup_in_mro w l' a
      end
  end.

Definition class_getattr (w : World) (c : tid) (a : string) : option pyval :=
  lookup_in_mro w (mro w c) a.

(** [setattr(c, a, v)] on a class object. *)
Definition with_attr (a : string) (v : pyval) (ci : class_info) : class_info :=
  {| c_name := c_name ci;
     c_ancestors := c_ancestors ci;
     c_kind := c_kind ci;
     c_attrs := <[a := v]> (c_attrs ci) |}.

Definition class_setattr (c : tid) (a : string) (v : pyval) (w : World) : World :=
  {| classes := alter (with_attr a v) c (classes w);
     next_tid := next_tid w;
     next_ref := next_ref w |}.

(** [get_origin(t) is Union or get_origin(t) is types.UnionType] *)
Definition is_union (t : tyobj) : bool :=
  match t with TUnion _ _ _ => true | TClass _ => false end.

(** [get_args(t)] *)
Definition get_args (t : tyobj) : list tyobj :=
  match t with TUnion a b r => map TClass (a :: b :: r) | TClass _ => [] end.

(** [Union[tuple(ts)]] for classes [ts]: duplicates are dropped keeping the
    first occurrence, and a union of one type is that type itself.  A union
    of no types is a TypeError, here [None]. *)
Fixpoint dedup_first (seen ts : list tid) : list tid :=
  match ts with
  | [] => []
  | t :: ts' =>
      if bool_decide (t ∈ seen) then dedup_first seen ts'
      else t :: dedup_first (t :: seen) ts'
  end.

Definition make_union (ts : list tid) : option tyobj :=
  match dedup_first [] ts with
  | [] => None
  | [t] => Some (TClass t)
  | a :: b :: r => Some (TUnion a b r)
  end.

End Py.

(** ** [repr] and [==] on the modelled values *)

Module Builtins.
Import Py.

Definition hex_digit (n : nat) : ascii :=
  match n with
  | 0 => "0" | 1 => "1" | 2 => "2" | 3 => "3" | 4 => "4" | 5 => "5"
  | 6 => "6" | 7 => "7" | 8 => "8" | 9 => "9" | 10 => "a" | 11 => "b"
  | 12 => "c" | 13 => "d" | 14 => "e" | _ => "f"
  end%char.

Definition backslash : ascii := ascii_of_nat 92.
Definition squote : ascii := ascii_of_nat 39.
Definition dquote : ascii := ascii_of_nat 34.

Fixpoint contains (c : ascii) (s : string) : bool :=
  match s with
  | EmptyString => false
  | String d s' => if Ascii.eqb c d then true else contains c s'
  end.

(** One character of [repr(str)] for the chosen quote.  Bytes above 127
    are kept as they are (they are the encoding of printable text). *)
Definition repr_char (quote : ascii) (c : ascii) : string :=
  let n := nat_of_ascii c in
  if Ascii.eqb c quote || Ascii.eqb c backslash then String backslash (String c "")
  else if Nat.eqb n 10 then String backslash "n"
  else if Nat.eqb n 13 then String backslash "r"
  else if Nat.eqb n 9 then String backslash "t"
  else if Nat.ltb n 32 || Nat.eqb n 127
       then String backslash (String "x" (String (hex_digit (n / 16)) (String (hex_digit (n mod 16)) "")))
  else String c "".

Fixpoint repr_chars (quote : ascii) (s : string) : string :=
  match s with
  | EmptyString => ""
  | String c s' => repr_char quote c ++ repr_chars quote s'
  end.

(** [repr(s)] for a string: single quotes unless the text has a single
    quote and no double quote. *)
Definition repr_str (s : string) : string :=
  let quote := if contains squote s && negb (contains dquote s) then dquote else squote in
  String quote (repr_chars quote s ++ String quote "").

(** [repr(v)].  A synthesized variant class installs its own [__repr__],
    built from the closure variables of its factory. *)
Fixpoint py_repr (w : World) (v : pyval) : string :=
  match v with
  | VNone => "None"
  | VInt z => pretty z
  | VStr s => repr_str s
  | VType (TClass c) => "<class '" ++ name_of w c ++ "'>"
  | VType (TUnion _ _ _) => "<union>"
  | VInst r c slot =>
      match kind_of w c with
      | ValueVariant name parent_name =>
          parent_name ++ "." ++ name ++ "("
            ++ match slot with Some p => py_repr w p | None => "" end ++ ")"
      | UnitVariant name parent_name => parent_name ++ "." ++ name
      | Plain => "<" ++ name_of w c ++ " object>"
      end
  | VVariants _ => "{...}"
  | VOpaque what => what
  end.

(** [a == b].  Value and unit variants install [__eq__]; a plain class
    keeps identity; [str.__eq__] and [int.__eq__] answer NotImplemented on
    another type, after which the reflected method of the right operand is
    tried and then identity. *)
Fixpoint py_eq (w : World) (a b : pyval) : bool :=
  match a with
  | VNone => match b with VNone => true | _ => false end
  | VInt z => match b with VInt z' => Z.eqb z z' | _ => false end
  | VStr s => match b with VStr s' => String.eqb s s' | _ => false end
  | VType t => match b with VType t' => bool_decide (t = t') | _ => false end
  | VInst r c slot =>
      match kind_of w c with
      | ValueVariant _ _ =>
          match b with
          | VInst r' c' slot' =>
              if bool_decide (c = c') then
                match slot, slot' with
                | Some p, Some p' => py_eq w p p'
                | _, _ => false
                end
              else false
          | _ => false
          end
      | UnitVariant _ _ =>
          match b with
          | VInst r' c' _ => bool_decide (c = c')
          | _ => false
          end
      | Plain =>
          match b with
          | VInst r' c' _ => bool_decide (r = r' /\ c = c')
          | _ => false
          end
      end
  | VVariants m => match b with VVariants m' => bool_decide (m = m') | _ => false end
  | VOpaque _ => false
  end.

(** [hash(v)].  The hashes Python computes for strings, numbers, None,
    types and tuples, and the identity hash of [object], are taken as
    given functions; the two variant kinds install [__hash__] on top of
    them.  A dict is unhashable. *)
Section Hash.

Variable hash_str : string -> Z.
Variable hash_int : Z -> Z.
Variable hash_none : Z.
Variable hash_type : tyobj -> Z.
Variable hash_id : ref -> Z.
Variable hash_opaque : string -> Z.
Variable hash_tuple : list Z -> Z.

Fixpoint py_hash (w : World) (v : pyval) : result Z :=
  match v with
  | VNone => Ok hash_none
  | VInt z => Ok (hash_int z)
  | VStr s => Ok (hash_str s)
  | VType t => Ok (hash_type t)
  | VInst r c slot =>
      match kind_of w c with
      | ValueVariant name _ =>
          match slot with
          | Some p =>
              match py_hash w p with
              | Ok h => Ok (hash_tuple [hash_str name; h])
              | Raise e => Raise e
              end
          | None => Raise (AttributeError "_value")
          end
      | UnitVariant name _ => Ok (hash_str name)
      | Plain => Ok (hash_id r)
      end
  | VVariants _ => Raise (TypeError "unhashable type: 'dict'")
  | VOpaque what => Ok (hash_opaque what)
  end.

End Hash.

End Builtins.

(** ** [operand/cases.py] *)

Module Cases.
Import Py.

(** An annotation as [get_type_hints] returns it: a class (a [None]
    annotation arrives as the class [NoneType]), [typing.Any], or another
    typing construct, of which only its [str] matters here. *)
Inductive annotation :=
| AnnClass (c : tid)
| AnnAny
| AnnOther (text : string).

Definition str_of_annotation (w : World) (a : annotation) : string :=
  match a with
  | AnnClass c => "<class '" ++ name_of w c ++ "'>"
  | AnnAny => "typing.Any"
  | AnnOther text => text
  end.

(** [isinstance(variant_type, type)] *)
Definition isinstance_type (a : annotation) : bool :=
  match a with
  | AnnClass _ => true
  | AnnAny => true
  | AnnOther _ => false
  end.

Definition _is_unit_variant (variant_type : annotation) : bool :=
  match variant_type with
  | AnnClass c => bool_decide (c = NoneType_t)
  | _ => false
  end.

Definition _is_any_type (w : World) (variant_type : annotation) : bool :=
  String.eqb (str_of_annotation w variant_type) "typing.Any".

Definition _is_existing_class (w : World) (variant_type : annotation) : bool :=
  isinstance_type variant_type
  && negb (_is_unit_variant variant_type)
  && negb (_is_any_type w variant_type).

(** [type(name, (), {...})]: a new class below [object]. *)
Definition new_class (name : string) (k : class_kind) (w : World) : tid * World :=
  (next_tid w,
   {| classes := <[next_tid w := {| c_name := name; c_ancestors := [object_t];
                                    c_kind := k; c_attrs := ∅ |}]> (classes w);
      next_tid := S (next_tid w);
      next_ref := next_ref w |}).

Definition _create_value_variant (name parent_name : string) (w : World) : tid * World :=
  new_class name (ValueVariant name parent_name) w.

Definition _create_unit_variant (name parent_name : string) (w : World) : tid * World :=
  new_class name (UnitVariant name parent_name) w.

Definition _create_variant (name : string) (variant_type : annotation)
    (parent_name : string) (w : World) : (tid * bool) * World :=
  if _is_unit_variant variant_type then
    let '(c, w') := _create_unit_variant name parent_name w in ((c, true), w')
  else if _is_existing_class w variant_type then
    match variant_type with
    | AnnClass c => ((c, false), w)
    | _ => let '(c, w') := _create_value_variant name parent_name w in ((c, false), w')
    end
  else
    let '(c, w') := _create_value_variant name parent_name w in ((c, false), w').

(** [object.__new__(cls)]: a fresh instance with an empty slot. *)
Definition object_new (cls : tid) (w : World) : pyval * World :=
  (VInst (next_ref w) cls None,
   {| classes := classes w; next_tid := next_tid w; next_ref := S (next_ref w) |}).

(** [__new__] of a unit variant class.  The instance is made and stored
    on the class only when the class has no [_instance] yet; the final
    [return cls._instance] reads back what the class then holds. *)
Definition unit_new (cls : tid) (w : World) : pyval * World :=
  match class_getattr w cls "_instance" with
  | Some v => (v, w)
  | None => let '(inst, w') := object_new cls w in
            (inst, class_setattr cls "_instance" inst w')
  end.

(** [__init__] of a value variant class, after [object.__new__]. *)
Definition value_init (self : pyval) (value : pyval) : pyval :=
  match self with
  | VInst r c _ => VInst r c (Some value)
  | _ => self
  end.

(** Calling a class object with positional arguments. *)
Definition call_class (cls : tid) (args : list pyval) (w : World) : result pyval * World :=
  match kind_of w cls with
  | ValueVariant _ _ =>
      match args with
      | [value] => let '(self, w') := object_new cls w in (Ok (value_init self value), w')
      | [] => (Raise (TypeError "_create_value_variant.<locals>.__init__() missing 1 required positional argument: 'value'"), w)
      | _ => (Raise (TypeError ("_create_value_variant.<locals>.__init__() takes 2 positional arguments but "
                                  ++ pretty (S (length args)) ++ " were given")), w)
      end
  | UnitVariant _ _ =>
      match args with
      | [] => let '(inst, w') := unit_new cls w in (Ok inst, w')
      | _ => (Raise (TypeError ("_create_unit_variant.<locals>.__new__() takes 1 positional argument but "
                                  ++ pretty (S (length args)) ++ " were given")), w)
      end
  | Plain =>
      match args with
      | [] => let '(self, w') := object_new cls w in (Ok self, w')
      | _ => (Raise (TypeError (name_of w cls ++ "() takes no arguments")), w)
      end
  end.

(** Names a variant class defines in its namespace, and the names every
    object inherits from [object]. *)
Definition value_variant_namespace : list string :=
  ["__slots__"; "__annotations__"; "__match_args__"; "__init__"; "__setattr__";
   "__delattr__"; "__repr__"; "__eq__"; "__hash__"; "__rshift__"; "value"; "_value"].

Definition unit_variant_namespace : list string :=
  ["__slots__"; "__match_args__"; "__new__"; "__setattr__"; "__delattr__";
   "__repr__"; "__eq__"; "__hash__"; "__rshift__"].

Definition object_namespace : list string :=
  ["__class__"; "__delattr__"; "__dir__"; "__doc__"; "__eq__"; "__format__";
   "__ge__"; "__getattribute__"; "__getstate__"; "__gt__"; "__hash__";
   "__init__"; "__init_subclass__"; "__le__"; "__lt__"; "__module__"; "__ne__";
   "__new__"; "__reduce__"; "__reduce_ex__"; "__repr__"; "__setattr__";
   "__sizeof__"; "__str__"; "__subclasshook__"].

Definition no_attribute (w : World) (cls : tid) (attr : string) : exn :=
  AttributeError ("'" ++ name_of w cls ++ "' object has no attribute '" ++ attr ++ "'").

(** [obj.attr] on an instance. *)
Definition getattr (w : World) (obj : pyval) (attr : string) : result pyval :=
  match obj with
  | VInst r c slot =>
      let inherited :=
        match class_getattr w c attr with
        | Some v => Ok v
        | None => if bool_decide (attr ∈ object_namespace) then Ok (VOpaque attr)
                  else Raise (no_attribute w c attr)
        end in
      match kind_of w c with
      | ValueVariant _ _ =>
          if String.eqb attr "value" || String.eqb attr "_value" then
            match slot with
            | Some p => Ok p
            | None => Raise (AttributeError "_value")
            end
          else if bool_decide (attr ∈ value_variant_namespace) then Ok (VOpaque attr)
          else inherited
      | UnitVariant _ _ =>
          if bool_decide (attr ∈ unit_variant_namespace) then Ok (VOpaque attr)
          else inherited
      | Plain => inherited
      end
  | _ => if bool_decide (attr ∈ object_namespace) then Ok (VOpaque attr)
         else Raise (no_attribute w (type_of obj) attr)
  end.

(** [obj.attr = val] and [del obj.attr] call [__setattr__] and
    [__delattr__] of the class of [obj].  Both variant kinds install
    methods that raise; a class that installs none runs the default of
    [object], which this model does not follow further. *)
Inductive attr_outcome :=
| AttrRaises (e : exn)
| AttrDefault.

Definition setattr (w : World) (obj : pyval) (attr : string) (val : pyval) : attr_outcome :=
  match kind_of w (type_of obj) with
  | ValueVariant name _ => AttrRaises (AttributeError (name ++ " is immutable"))
  | UnitVariant name _ => AttrRaises (AttributeError (name ++ " is immutable"))
  | Plain => AttrDefault
  end.

Definition delattr (w : World) (obj : pyval) (attr : string) : attr_outcome :=
  match kind_of w (type_of obj) with
  | ValueVariant name _ => AttrRaises (AttributeError (name ++ " is immutable"))
  | UnitVariant name _ => AttrRaises (AttributeError (name ++ " is immutable"))
  | Plain => AttrDefault
  end.

(** The state of the loop of [cases]: the [variants] dict (in insertion
    order), the [variant_types] list and the world. *)
Record loop_state := {
  variants : list (string * tyobj);
  variant_types : list tid;
  world : World
}.

(** One iteration of the loop over [annotations.items()].  For a singleton
    the call [variant_cls()] runs the [__new__] of the new unit class. *)
Definition cases_step (cls : tid) (item : string * annotation) (st : loop_state) : loop_state :=
  let '(name, variant_type) := item in
  let '((variant_cls, is_singleton), w1) :=
    _create_variant name variant_type (name_of (world st) cls) (world st) in
  let w2 :=
    if is_singleton then
      let '(inst, w') := unit_new variant_cls w1 in
      class_setattr cls name inst w'
    else class_setattr cls name (VType (TClass variant_cls)) w1 in
  {| variants := variants st ++ [(name, TClass variant_cls)];
     variant_types := variant_types st ++ [variant_cls];
     world := w2 |}.

Definition cases_loop (cls : tid) (annotations : list (string * annotation))
    (st : loop_state) : loop_state :=
  fold_left (fun st item => cases_step cls item st) annotations st.

(** [cases(cls)], with [annotations] the items of [get_type_hints(cls)] (the
    empty list when the class has no annotations).  Returns the world in
    which [cls] carries its variants, [_variants] and [_union]. *)
Definition cases (cls : tid) (annotations : list (string * annotation)) (w : World) : World :=
  let st := cases_loop cls annotations {| variants := []; variant_types := []; world := w |} in
  let w1 := class_setattr cls "_variants" (VVariants (variants st)) (world st) in
  class_setattr cls "_union"
    (match variant_types st with
     | [] => VNone
     | _ => match make_union (variant_types st) with
            | Some u => VType u
            | None => VNone
            end
     end) w1.

(** The list [variant_types] the loop of [cases] ends with. *)
Definition declared_variant_types (cls : tid) (annotations : list (string * annotation))
    (w : World) : list tid :=
  variant_types (cases_loop cls annotations {| variants := []; variant_types := []; world := w |}).

(** The annotation names an existing class to alias. *)
Definition is_alias (a : annotation) : bool :=
  match a with
  | AnnClass c => negb (bool_decide (c = NoneType_t))
  | _ => false
  end.

(** The class a variant gets: the aliased class, or else the class
    [fresh] that is synthesized for it. *)
Definition variant_class_of (a : annotation) (fresh : tid) : tid :=
  match a with
  | AnnClass c => if bool_decide (c = NoneType_t) then fresh else c
  | _ => fresh
  end.

(** The variant classes of a declaration when [fresh] is the identity the
    next new class receives: one new class per unit or value variant, in
    order, none for an alias. *)
Fixpoint expected_variant_types (fresh : tid) (annotations : list (string * annotation))
  : list tid :=
  match annotations with
  | [] => []
  | (_, a) :: rest =>
      variant_class_of a fresh
        :: expected_variant_types (if is_alias a then fresh else S fresh) rest
  end.

(** *** Programs over the class table

    What a program using this module does to the world: it defines
    classes, decorates a class of its own with [cases], and calls classes
    to construct instances. *)
Inductive op :=
| OpDefine (name : string) (anc : list tid)
| OpCases (cls : tid) (annotations : list (string * annotation))
| OpCall (cls : tid) (args : list pyval).

Definition run_op (o : op) (w : World) : World :=
  match o with
  | OpDefine name anc => snd (define_class name anc w)
  | OpCases cls annotations => cases cls annotations w
  | OpCall cls args => snd (call_class cls args w)
  end.

(** [cases] decorates a class written by the program: not a built-in
    (Python refuses to set attributes on those) and not a class [cases]
    itself synthesized. *)
Definition user_class (w : World) (cls : tid) : Prop :=
  next_tid builtins <= cls /\ is_Some (classes w !! cls) /\ kind_of w cls = Plain.

Definition allowed (w : World) (o : op) : Prop :=
  match o with
  | OpCases cls _ => user_class w cls
  | _ => True
  end.

Inductive reachable : World -> Prop :=
| reach_builtins : reachable builtins
| reach_op (w : World) (o : op) : reachable w -> allowed w o -> reachable (run_op o w).

(** [later w w']: the program can take the world [w] to [w']. *)
Inductive later : World -> World -> Prop :=
| later_refl (w : World) : later w w
| later_op (w w' : World) (o : op) : later w w' -> allowed w' o -> later w (run_op o w').

(** [later_keeping cls w w']: as [later], but the program does not decorate
    [cls] again. *)
Inductive later_keeping (cls : tid) : World -> World -> Prop :=
| keeping_refl (w : World) : later_keeping cls w w
| keeping_op (w w' : World) (o : op) :
    later_keeping cls w w' -> allowed w' o ->
    (forall annotations, o <> OpCases cls annotations) ->
    later_keeping cls w (run_op o w').

(** What holds of every reachable world. *)
Record invariant (w : World) : Prop := {
  inv_fresh : forall c, is_Some (classes w !! c) -> c < next_tid w;
  inv_object : exists ci, classes w !! object_t = Some ci /\ c_kind ci = Plain /\
                          c_attrs ci !! "_instance" = None;
  inv_variant_mro : forall c ci, classes w !! c = Some ci -> c_kind ci <> Plain ->
                                 c_ancestors ci = [object_t];
  inv_instance : forall c ci v, classes w !! c = Some ci -> c_kind ci <> Plain ->
                                c_attrs ci !! "_instance" = Some v ->
                                exists r, v = VInst r c None
}.

(** The class [c] is the unit variant class [name] of [parent_name] and
    holds [inst] in its own [_instance]. *)
Definition unit_singleton (w : World) (c : tid) (name parent_name : string)
    (inst : pyval) : Prop :=
  exists ci,
    classes w !! c = Some ci /\ c_kind ci = UnitVariant name parent_name /\
    c_attrs ci !! "_instance" = Some inst.

(** From [w] to [w'] every synthesized variant class keeps its kind and,
    once it has one, its [_instance]. *)
Definition variant_stable (w w' : World) : Prop :=
  forall c ci, classes w !! c = Some ci -> c_kind ci <> Plain ->
    exists ci', classes w' !! c = Some ci' /\ c_kind ci' = c_kind ci /\
                forall v, c_attrs ci !! "_instance" = Some v ->
                          c_attrs ci' !! "_instance" = Some v.


End Cases.

(** ** [struct/trait.py] *)

Module Trait.
Import Py.

(** A Python function object: its identity, its [__name__] and the number
    of parameters its [def] declares. *)
Record pyfunc := {
  f_id : nat;
  f_name : string;
  f_nparams : nat
}.

#[global] Instance pyfunc_eq_dec : EqDecision pyfunc.
Proof. solve_decision. Defined.

Section WithWorld.

Variable w : World.

(** [getattr(t, "_union")] when [hasattr(t, "_union")]; a union object has
    no such attribute. *)
Definition union_attr (t : tyobj) : option pyval :=
  match t with
  | TClass c => class_getattr w c "_union"
  | TUnion _ _ _ => None
  end.

(** The second half of the loop body: [t] itself, or its members when it
    is a union. *)
Definition unwrap_plain (t : tyobj) : list tyobj :=
  if is_union t then get_args t else [t].

(** The loop body of [_unwrap_types] for one [t]: what it adds to [result]. *)
Definition unwrap_one (t : tyobj) : list tyobj :=
  match union_attr t with
  | Some (VType union_type) =>
      if is_union union_type then get_args union_type else unwrap_plain t
  | Some _ => unwrap_plain t
  | None => unwrap_plain t
  end.

(** Whether [t] has a [_union] attribute that is a union object. *)
Definition carries_union (t : tyobj) : bool :=
  match union_attr t with
  | Some (VType union_type) => is_union union_type
  | _ => false
  end.

Fixpoint _unwrap_types (types_ : list tyobj) : list tyobj :=
  match types_ with
  | [] => []
  | t :: rest => unwrap_one t ++ _unwrap_types rest
  end.

(** The loop [for mro_type in arg_type.__mro__] of the single finder. *)
Fixpoint first_registered (registry : gmap tyobj pyfunc) (l : list tid) : option pyfunc :=
  match l with
  | [] => None
  | mro_type :: l' =>
      match registry !! TClass mro_type with
      | Some f => Some f
      | None => first_registered registry l'
      end
  end.

Definition _find_implementation_single (arg_type : tid)
    (registry : gmap tyobj pyfunc) (cache : gmap tid pyfunc)
  : option pyfunc * gmap tid pyfunc :=
  match cache !! arg_type with
  | Some f => (Some f, cache)
  | None =>
      match first_registered registry (mro w arg_type) with
      | Some f => (Some f, <[arg_type := f]> cache)
      | None => (None, cache)
      end
  end.

(** The inner function [search_mro(idx, current)], by recursion on the
    MROs still to visit, [mros[idx:]]. *)
Fixpoint search_mro (registry : gmap (list tyobj) pyfunc)
    (mros : list (list tid)) (current : list tid) : option pyfunc :=
  match mros with
  | [] => registry !! map TClass current
  | m :: rest =>
      (fix loop (l : list tid) : option pyfunc :=
         match l with
         | [] => None
         | mro_type :: l' =>
             match search_mro registry rest (current ++ [mro_type]) with
             | Some result => Some result
             | None => loop l'
             end
         end) m
  end.

Definition _find_implementation_multi (arg_types : list tid)
    (registry : gmap (list tyobj) pyfunc) (cache : gmap (list tid) pyfunc)
  : option pyfunc * gmap (list tid) pyfunc :=
  match cache !! arg_types with
  | Some f => (Some f, cache)
  | None =>
      match registry !! map TClass arg_types with
      | Some f => (Some f, <[arg_types := f]> cache)
      | None =>
          let mros := map (mro w) arg_types in
          match search_mro registry mros [] with
          | Some impl => (Some impl, <[arg_types := impl]> cache)
          | None => (None, cache)
          end
      end
  end.

Record TraitDispatcher := {
  _default : pyfunc;
  _name : string;
  _registry_single : gmap tyobj pyfunc;
  _cache_single : gmap tid pyfunc;
  _registry_multi : gmap (list tyobj) pyfunc;
  _cache_multi : gmap (list tid) pyfunc
}.

(** [TraitDispatcher(default_func)] and the decorator [trait]. *)
Definition trait (func : pyfunc) : TraitDispatcher :=
  {| _default := func;
     _name := f_name func;
     _registry_single := ∅;
     _cache_single := ∅;
     _registry_multi := ∅;
     _cache_multi := ∅ |}.

(** [_unwrap_types((t,))[0]]; [None] stands for the IndexError of an
    empty tuple. *)
Definition first_unwrapped (t : tyobj) : option tyobj :=
  head (_unwrap_types [t]).

(** [self.impl(types_...)(func)]: the decorator applied to [func].  The
    function object is returned unchanged, so only the new state of the
    dispatcher is given.  The multi branch indexes each unwrapped tuple at
    0; should one be empty the IndexError leaves the dispatcher as it was. *)
Definition impl (self : TraitDispatcher) (types_ : list tyobj) (func : pyfunc)
  : result TraitDispatcher :=
  let num_types := length types_ in
  if Nat.ltb 1 num_types then
    match mapM first_unwrapped types_ with
    | Some unwrapped =>
        Ok {| _default := _default self;
              _name := _name self;
              _registry_single := _registry_single self;
              _cache_single := _cache_single self;
              _registry_multi := <[unwrapped := func]> (_registry_multi self);
              _cache_multi := ∅ |}
    | None => Raise (IndexError "tuple index out of range")
    end
  else
    let unwrapped := _unwrap_types types_ in
    Ok {| _default := _default self;
          _name := _name self;
          _registry_single :=
            fold_left (fun reg t => <[t := func]> reg) unwrapped (_registry_single self);
          _cache_single := ∅;
          _registry_multi := _registry_multi self;
          _cache_multi := _cache_multi self |}.

Definition _is_multi_dispatch (self : TraitDispatcher) : bool :=
  negb (bool_decide (_registry_multi self = ∅)).

(** [", ".join(names)] *)
Fixpoint join (sep : string) (l : list string) : string :=
  match l with
  | [] => ""
  | [x] => x
  | x :: l' => x ++ sep ++ join sep l'
  end.

Definition type_names (args : list pyval) : string :=
  join ", " (map (fun a => name_of w (type_of a)) args).

Inductive warning :=
| MissingImplementationWarning (msg : string).

(** What a call of the dispatcher does: it returns the call of the
    resolved [impl] on the original arguments, or raises. *)
Inductive outcome :=
| Invokes (impl : pyfunc) (args : list pyval)
| Raises (e : exn).

Record call_result := {
  cr_outcome : outcome;
  cr_warnings : list warning;     (* [warnings.warn] calls, in order *)
  cr_self : TraitDispatcher
}.

Definition with_cache_multi (self : TraitDispatcher) (c : gmap (list tid) pyfunc) :=
  {| _default := _default self; _name := _name self;
     _registry_single := _registry_single self; _cache_single := _cache_single self;
     _registry_multi := _registry_multi self; _cache_multi := c |}.

Definition with_cache_single (self : TraitDispatcher) (c : gmap tid pyfunc) :=
  {| _default := _default self; _name := _name self;
     _registry_single := _registry_single self; _cache_single := c;
     _registry_multi := _registry_multi self; _cache_multi := _cache_multi self |}.

(** The part of [__call__] from [# Single-dispatch mode] on. *)
Definition call_single (self : TraitDispatcher) (arg : pyval) (args : list pyval) : call_result :=
  let '(impl, cache) :=
    _find_implementation_single (type_of arg) (_registry_single self) (_cache_single self) in
  let self' := with_cache_single self cache in
  match impl with
  | None =>
      let msg : string :=
        if _is_multi_dispatch self' && Nat.leb 2 (length args) then
          ("No implementation of '" ++ _name self' ++ "' for types: (" ++ type_names args ++ ")")%string
        else
          ("No implementation of '" ++ _name self' ++ "' for type: " ++ name_of w (type_of arg))%string in
      {| cr_outcome := Raises (NotImplementedError msg);
         cr_warnings := [MissingImplementationWarning msg];
         cr_self := self' |}
  | Some f => {| cr_outcome := Invokes f args; cr_warnings := []; cr_self := self' |}
  end.

(** The message of a resolution failure. *)
Definition miss_message (self : TraitDispatcher) (args : list pyval) : string :=
  match args with
  | [] => ""
  | arg :: _ =>
      if _is_multi_dispatch self && Nat.leb 2 (length args) then
        "No implementation of '" ++ _name self ++ "' for types: (" ++ type_names args ++ ")"
      else
        "No implementation of '" ++ _name self ++ "' for type: " ++ name_of w (type_of arg)
  end.

(** [self.__call__] on the positional arguments [args]. *)
Definition call (self : TraitDispatcher) (args : list pyval) : call_result :=
  match args with
  | [] => {| cr_outcome := Raises (TypeError (_name self ++ "() requires at least one argument"));
             cr_warnings := [];
             cr_self := self |}
  | arg :: _ =>
      if _is_multi_dispatch self && Nat.leb 2 (length args) then
        let arg_types := map type_of args in
        let '(impl, cache) :=
          _find_implementation_multi arg_types (_registry_multi self) (_cache_multi self) in
        let self' := with_cache_multi self cache in
        match impl with
        | Some f => {| cr_outcome := Invokes f args; cr_warnings := []; cr_self := self' |}
        | None => call_single self' arg args
        end
      else call_single self arg args
  end.

(** [self.require] on the objects [objs]. *)
Definition require (self : TraitDispatcher) (objs : list pyval) : result bool * TraitDispatcher :=
  let single (self : TraitDispatcher) :=
    match objs with
    | [] => (Raise (IndexError "tuple index out of range"), self)
    | obj0 :: _ =>
        let '(impl, cache) :=
          _find_implementation_single (type_of obj0) (_registry_single self) (_cache_single self) in
        (Ok (bool_decide (impl <> None)), with_cache_single self cache)
    end in
  if _is_multi_dispatch self && Nat.leb 2 (length objs) then
    let arg_types := map type_of objs in
    let '(impl, cache) :=
      _find_implementation_multi arg_types (_registry_multi self) (_cache_multi self) in
    let self' := with_cache_multi self cache in
    match impl with
    | Some _ => (Ok true, self')
    | None => single self'
    end
  else single self.

(** [self.check] on the objects [objs].  The message is built only after
    [require] has answered, so [objs[0]] is there. *)
Definition check (self : TraitDispatcher) (objs : list pyval) : result unit * TraitDispatcher :=
  match require self objs with
  | (Raise e, self') => (Raise e, self')
  | (Ok true, self') => (Ok tt, self')
  | (Ok false, self') =>
      if _is_multi_dispatch self' && Nat.leb 2 (length objs) then
        (Raise (TypeError ("No implementation of '" ++ _name self' ++ "' for types: ("
                             ++ type_names objs ++ ")")), self')
      else
        match objs with
        | obj0 :: _ =>
            (Raise (TypeError ("No implementation of '" ++ _name self' ++ "' for type: "
                                 ++ name_of w (type_of obj0))), self')
        | [] => (Raise (IndexError "tuple index out of range"), self')
        end
  end.

(** *** The resolution order in the words of the specification

    The cartesian product of the MROs in position-major order: position 0
    is the outermost loop, every position runs most specific first. *)
Fixpoint cartesian (mros : list (list tid)) : list (list tid) :=
  match mros with
  | [] => [[]]
  | m :: rest => flat_map (fun t => map (cons t) (cartesian rest)) m
  end.

(** The first key of a list that the registry holds. *)
Fixpoint first_hit (registry : gmap (list tyobj) pyfunc) (keys : list (list tid))
  : option pyfunc :=
  match keys with
  | [] => None
  | k :: keys' =>
      match registry !! map TClass k with
      | Some f => Some f
      | None => first_hit registry keys'
      end
  end.

(** What the two finders compute when their cache is empty. *)
Definition resolve_single (registry : gmap tyobj pyfunc) (arg_type : tid) : option pyfunc :=
  first_registered registry (mro w arg_type).

Definition resolve_multi (registry : gmap (list tyobj) pyfunc) (arg_types : list tid)
  : option pyfunc :=
  match registry !! map TClass arg_types with
  | Some f => Some f
  | None => search_mro registry (map (mro w) arg_types) []
  end.

(** Caches that only hold what a fresh search would find. *)
Definition single_ok (reg : gmap tyobj pyfunc) (cache : gmap tid pyfunc) : Prop :=
  forall t f, cache !! t = Some f -> resolve_single reg t = Some f.

Definition multi_ok (reg : gmap (list tyobj) pyfunc) (cache : gmap (list tid) pyfunc) : Prop :=
  forall ts f, cache !! ts = Some f -> resolve_multi reg ts = Some f.

Definition coherent (self : TraitDispatcher) : Prop :=
  single_ok (_registry_single self) (_cache_single self) /\
  multi_ok (_registry_multi self) (_cache_multi self).

Definition clear_caches (self : TraitDispatcher) : TraitDispatcher :=
  with_cache_single (with_cache_multi self ∅) ∅.

(** The implementation a call resolves to when nothing is cached: the
    multi-dispatch search first, when that registry is not empty and there
    are two or more arguments, then single dispatch on the first argument. *)
Definition resolve (self : TraitDispatcher) (args : list pyval) : option pyfunc :=
  match args with
  | [] => None
  | arg :: _ =>
      match (if _is_multi_dispatch self && Nat.leb 2 (length args)
             then resolve_multi (_registry_multi self) (map type_of args)
             else None) with
      | Some f => Some f
      | None => resolve_single (_registry_single self) (type_of arg)
      end
  end.

(** [self'] differs from [self] at most by more cached resolutions. *)
Definition extends (self self' : TraitDispatcher) : Prop :=
  _default self' = _default self /\ _name self' = _name self /\
  _registry_single self' = _registry_single self /\
  _registry_multi self' = _registry_multi self /\
  _cache_single self ⊆ _cache_single self' /\
  _cache_multi self ⊆ _cache_multi self'.

(** The registries hold classes only, and multi-dispatch signatures have
    two or more positions. *)
Definition keys_are_classes (self : TraitDispatcher) : Prop :=
  (forall t f, _registry_single self !! t = Some f -> is_union t = false) /\
  (forall sig f, _registry_multi self !! sig = Some f ->
                 2 <= length sig /\ Forall (fun t => is_union t = false) sig).

(** The operations a program performs on a dispatcher. *)
Inductive event :=
| EvImpl (types_ : list tyobj) (func : pyfunc)
| EvCall (args : list pyval)
| EvRequire (objs : list pyval).

Definition step (self : TraitDispatcher) (ev : event) : TraitDispatcher :=
  match ev with
  | EvImpl types_ func =>
      match impl self types_ func with
      | Ok self' => self'
      | Raise _ => self
      end
  | EvCall args => cr_self (call self args)
  | EvRequire objs => snd (require self objs)
  end.

(** The dispatcher of [default_func] after a history of operations. *)
Definition after (default_func : pyfunc) (history : list event) : TraitDispatcher :=
  fold_left step history (trait default_func).

End WithWorld.

End Trait.

(** ** Concrete programs used as examples *)

Module Examples.
Import Py Builtins Cases Trait.

(** [class Base: ...], [class A(Base): ...], [class B(Base): ...] *)
Definition with_Base := define_class "Base" [object_t] builtins.
Definition Base : tid := fst with_Base.
Definition with_A := define_class "A" [Base; object_t] (snd with_Base).
Definition A : tid := fst with_A.
Definition with_B := define_class "B" [Base; object_t] (snd with_A).
Definition B : tid := fst with_B.
Definition hierarchy : World := snd with_B.

Definition an_A : pyval := VInst 0 A None.
Definition a_B : pyval := VInst 1 B None.

Definition fallback : pyfunc := {| f_id := 0; f_name := "encounter"; f_nparams := 2 |}.
Definition on_A_B : pyfunc := {| f_id := 1; f_name := "a_b"; f_nparams := 2 |}.
Definition on_Base_Base : pyfunc := {| f_id := 2; f_name := "base_base"; f_nparams := 2 |}.
Definition on_A_Base : pyfunc := {| f_id := 3; f_name := "a_base"; f_nparams := 2 |}.
Definition on_Base_B : pyfunc := {| f_id := 4; f_name := "base_b"; f_nparams := 2 |}.
Definition on_Base : pyfunc := {| f_id := 5; f_name := "on_base"; f_nparams := 1 |}.
Definition on_A : pyfunc := {| f_id := 6; f_name := "on_a"; f_nparams := 1 |}.
Definition two_params : pyfunc := {| f_id := 7; f_name := "process_point"; f_nparams := 2 |}.
Definition one_param : pyfunc := {| f_id := 8; f_name := "handle_animal"; f_nparams := 1 |}.

(** [@cases class PaymentStatus: Pending: None; Authorized: Any; Failed: Any] *)
Definition with_PaymentStatus := define_class "PaymentStatus" [object_t] builtins.
Definition PaymentStatus : tid := fst with_PaymentStatus.
Definition payments : World :=
  cases PaymentStatus
    [("Pending", AnnClass NoneType_t); ("Authorized", AnnAny); ("Failed", AnnAny)]
    (snd with_PaymentStatus).

(** [PaymentStatus.Authorized], the class stored on the sum type. *)
Definition Authorized : tid :=
  match class_getattr payments PaymentStatus "Authorized" with
  | Some (VType (TClass c)) => c
  | _ => object_t
  end.

(** [@cases class Box: Item: Any] *)
Definition with_Box := define_class "Box" [object_t] builtins.
Definition Box : tid := fst with_Box.
Definition boxes : World := cases Box [("Item", AnnAny)] (snd with_Box).

(** [Box.Item], the class stored on the sum type. *)
Definition Item : tid :=
  match class_getattr boxes Box "Item" with
  | Some (VType (TClass c)) => c
  | _ => object_t
  end.

(** [@cases class Flags: _union: None; On: None] *)
Definition with_Flags := define_class "Flags" [object_t] builtins.
Definition Flags : tid := fst with_Flags.
Definition flags : World :=
  cases Flags [("_union", AnnClass NoneType_t); ("On", AnnClass NoneType_t)] (snd with_Flags).

(** [cases(PaymentStatus)] applied a second time, to the same annotations. *)
Definition payments_again : World :=
  cases PaymentStatus
    [("Pending", AnnClass NoneType_t); ("Authorized", AnnAny); ("Failed", AnnAny)]
    payments.

(** [@cases class Inner: P: None; Q: None] and
    [@cases class Outer: X: Inner; Y: None] *)
Definition with_Inner := define_class "Inner" [object_t] builtins.
Definition Inner : tid := fst with_Inner.
Definition inner_declared : World :=
  cases Inner [("P", AnnClass NoneType_t); ("Q", AnnClass NoneType_t)] (snd with_Inner).
Definition with_Outer := define_class "Outer" [object_t] inner_declared.
Definition Outer : tid := fst with_Outer.
Definition nested : World :=
  cases Outer [("X", AnnClass Inner); ("Y", AnnClass NoneType_t)] (snd with_Outer).


End Examples.

(** * Properties *)

Import Py Builtins Cases Trait.

(** ** Multi-dispatch resolution order *)

Section Resolution.

Variable w : World.

Lemma first_hit_app registry (k1 k2 : list (list tid)) :
  first_hit registry (k1 ++ k2) =
  match first_hit registry k1 with Some f => Some f | None => first_hit registry k2 end.
Proof.
  induction k1 as [|k k1 IH]; simpl; [reflexivity|].
  destruct (registry !! map TClass k); [reflexivity | exact IH].
Qed.

Lemma search_mro_first_hit registry (mros : list (list tid)) (current : list tid) :
  search_mro registry mros current =
  first_hit registry (map (app current) (cartesian mros)).
Proof.
  revert current. induction mros as [|m rest IH]; intros current; simpl.
  - rewrite app_nil_r. destruct (registry !! map TClass current); reflexivity.
  - induction m as [|t m IHm]; simpl; [reflexivity|].
    rewrite map_app, first_hit_app, map_map, IH, IHm.
    replace (map (fun x => current ++ t :: x) (cartesian rest))
      with (map (app (current ++ [t])) (cartesian rest)); [reflexivity|].
    apply map_ext. intros r. rewrite <- app_assoc. reflexivity.
Qed.

Lemma map_app_nil (l : list (list tid)) : map (app []) l = l.
Proof. induction l as [|x l IH]; [reflexivity|]. cbn [map]. rewrite IH. reflexivity. Qed.

Lemma find_multi_miss registry cache (arg_types : list tid) :
  cache !! arg_types = None ->
  fst (_find_implementation_multi w arg_types registry cache) =
  resolve_multi w registry arg_types.
Proof.
  intros Hmiss. unfold _find_implementation_multi, resolve_multi. rewrite Hmiss.
  destruct (registry !! map TClass arg_types); [reflexivity|].
  destruct (search_mro registry (map (mro w) arg_types) []); reflexivity.
Qed.

Lemma find_multi_miss_cache registry cache (arg_types : list tid) :
  cache !! arg_types = None ->
  snd (_find_implementation_multi w arg_types registry cache) =
  match fst (_find_implementation_multi w arg_types registry cache) with
  | Some f => <[arg_types := f]> cache
  | None => cache
  end.
Proof.
  intros Hmiss. unfold _find_implementation_multi. rewrite Hmiss.
  destruct (registry !! map TClass arg_types); [reflexivity|].
  destruct (search_mro registry (map (mro w) arg_types) []); reflexivity.
Qed.

(** C3: on a cache miss the exact tuple wins when it is registered, and
    otherwise the result is the first registry hit in the position-major
    enumeration of the cartesian product of the arguments' MROs. *)
Theorem multi_resolution_order registry cache (arg_types : list tid) :
  cache !! arg_types = None ->
  (forall f, registry !! map TClass arg_types = Some f ->
             fst (_find_implementation_multi w arg_types registry cache) = Some f) /\
  (registry !! map TClass arg_types = None ->
   fst (_find_implementation_multi w arg_types registry cache) =
   first_hit registry (cartesian (map (mro w) arg_types))).
Proof.
  intros Hmiss. rewrite (find_multi_miss _ _ _ Hmiss). unfold resolve_multi. split.
  - intros f Hf. rewrite Hf. reflexivity.
  - intros Hnone. rewrite Hnone, search_mro_first_hit, map_app_nil. reflexivity.
Qed.

End Resolution.

Lemma multi_resolution_order_witness :
  let registry : gmap (list tyobj) pyfunc :=
    <[ [TClass Examples.A; TClass Examples.B] := Examples.on_A_B ]>
    (<[ [TClass Examples.Base; TClass Examples.Base] := Examples.on_Base_Base ]> ∅) in
  (∅ : gmap (list tid) pyfunc) !! [Examples.A; Examples.B] = None /\
  registry !! map TClass [Examples.A; Examples.B] = Some Examples.on_A_B /\
  fst (_find_implementation_multi Examples.hierarchy [Examples.A; Examples.B] registry ∅)
  = Some Examples.on_A_B.
Proof.
  intros registry.
  assert (Hmiss : (∅ : gmap (list tid) pyfunc) !! [Examples.A; Examples.B] = None)
    by apply lookup_empty.
  assert (Hreg : registry !! map TClass [Examples.A; Examples.B] = Some Examples.on_A_B)
    by (vm_compute; reflexivity).
  split; [exact Hmiss|]. split; [exact Hreg|].
  exact (proj1 (multi_resolution_order Examples.hierarchy registry ∅
                  [Examples.A; Examples.B] Hmiss) _ Hreg).
Defined.

(** The order of the enumeration for two arguments of classes [A] and [B]. *)
Example cartesian_A_B :
  let '(a, b, base, o) := (Examples.A, Examples.B, Examples.Base, object_t) in
  cartesian (map (mro Examples.hierarchy) [a; b]) =
  [ [a; b]; [a; base]; [a; o];
    [base; b]; [base; base]; [base; o];
    [o; b]; [o; base]; [o; o] ].
Proof. reflexivity. Qed.

(** With [(A, Base)] and [(Base, B)] both registered and applicable to a
    call on [(A, B)], the more specific leftmost argument decides. *)
Example leftmost_specificity_wins :
  let registry : gmap (list tyobj) pyfunc :=
    <[ [TClass Examples.Base; TClass Examples.B] := Examples.on_Base_B ]>
    (<[ [TClass Examples.A; TClass Examples.Base] := Examples.on_A_Base ]> ∅) in
  fst (_find_implementation_multi Examples.hierarchy [Examples.A; Examples.B] registry ∅)
  = Some Examples.on_A_Base.
Proof. vm_compute. reflexivity. Qed.

(** ** Registration *)

Section Registration.

Variable w : World.

Lemma unwrap_one_nonempty (t : tyobj) : unwrap_one w t <> [].
Proof.
  assert (Hplain : unwrap_plain t <> []).
  { unfold unwrap_plain. destruct t; simpl; discriminate. }
  unfold unwrap_one. destruct (union_attr w t) as [[| | |u| | |]|]; try exact Hplain.
  destruct u; simpl; [exact Hplain | discriminate].
Qed.

Lemma first_unwrapped_is_Some (t : tyobj) : is_Some (first_unwrapped w t).
Proof.
  unfold first_unwrapped. simpl. rewrite app_nil_r.
  pose proof (unwrap_one_nonempty t) as Hne.
  destruct (unwrap_one w t); [congruence | simpl; eauto].
Qed.

Lemma signature_is_Some (types_ : list tyobj) : is_Some (mapM (first_unwrapped w) types_).
Proof.
  apply mapM_is_Some. apply Forall_forall. intros t _. apply first_unwrapped_is_Some.
Qed.

Lemma register_all_lookup (func : pyfunc) (l : list tyobj) (reg : gmap tyobj pyfunc) (t : tyobj) :
  fold_left (fun reg t => <[t := func]> reg) l reg !! t =
  if bool_decide (t ∈ l) then Some func else reg !! t.
Proof.
  revert reg. induction l as [|x l IH]; intros reg; cbn [fold_left].
  - case_bool_decide as H; [by apply elem_of_nil in H | reflexivity].
  - rewrite IH. destruct (decide (t ∈ l)) as [Hin|Hnin].
    + rewrite !bool_decide_eq_true_2; [reflexivity | by right | exact Hin].
    + rewrite (bool_decide_eq_false_2 _ Hnin). destruct (decide (t = x)) as [->|Hne].
      * rewrite lookup_insert_eq, bool_decide_eq_true_2; [reflexivity | by left].
      * rewrite lookup_insert_ne by congruence.
        rewrite bool_decide_eq_false_2; [reflexivity|].
        intros Hin. apply elem_of_cons in Hin as [?|?]; congruence.
Qed.

Lemma impl_total (self : TraitDispatcher) (types_ : list tyobj) (func : pyfunc) :
  exists self', impl w self types_ func = Ok self' /\
    if Nat.ltb 1 (length types_) then
      _registry_single self' = _registry_single self /\
      exists sig, mapM (first_unwrapped w) types_ = Some sig /\
                  _registry_multi self' = <[sig := func]> (_registry_multi self)
    else
      _registry_multi self' = _registry_multi self /\
      forall t, _registry_single self' !! t =
                if bool_decide (t ∈ _unwrap_types w types_) then Some func
                else _registry_single self !! t.
Proof.
  unfold impl. destruct (Nat.ltb 1 (length types_)).
  - destruct (signature_is_Some types_) as [sig Hsig]. rewrite Hsig.
    eexists. split; [reflexivity|]. simpl. split; [reflexivity|]. exists sig. split; reflexivity.
  - eexists. split; [reflexivity|]. simpl. split; [reflexivity|].
    intros t. apply register_all_lookup.
Qed.

(** C1 (as the code has it): the decorator always succeeds, and the
    registry it writes to is chosen by the number of types given to
    [impl]: the multi-dispatch registry exactly when there are two or
    more, whatever the parameter count of the function. *)
Theorem impl_registry_by_type_count (self : TraitDispatcher) (types_ : list tyobj) (func : pyfunc) :
  exists self', impl w self types_ func = Ok self' /\
    if Nat.ltb 1 (length types_) then
      _registry_single self' = _registry_single self /\
      exists sig, mapM (first_unwrapped w) types_ = Some sig /\
                  _registry_multi self' = <[sig := func]> (_registry_multi self)
    else
      _registry_multi self' = _registry_multi self /\
      forall t, _registry_single self' !! t =
                if bool_decide (t ∈ _unwrap_types w types_) then Some func
                else _registry_single self !! t.
Proof. exact (impl_total self types_ func). Qed.

End Registration.

(** C1, as stated, fails: [impl(A)] applied to a function of two
    parameters registers it in the single-dispatch registry and leaves the
    multi-dispatch registry empty. *)
Lemma impl_ignores_parameter_count :
  exists self',
    impl Examples.hierarchy (trait Examples.fallback) [TClass Examples.A] Examples.two_params
      = Ok self' /\
    f_nparams Examples.two_params = 2 /\
    _registry_multi self' = ∅ /\
    _registry_single self' !! TClass Examples.A = Some Examples.two_params.
Proof. eexists. repeat split. Qed.

(** The converse case: [impl(A, B)] applied to a function of one parameter
    goes to the multi-dispatch registry. *)
Example impl_two_types_one_parameter :
  exists self',
    impl Examples.hierarchy (trait Examples.fallback)
      [TClass Examples.A; TClass Examples.B] Examples.one_param = Ok self' /\
    f_nparams Examples.one_param = 1 /\
    _registry_single self' = ∅ /\
    _registry_multi self' !! [TClass Examples.A; TClass Examples.B] = Some Examples.one_param.
Proof. eexists. repeat split. Qed.

(** ** The multi-dispatch cache *)

Section MultiCache.

Variable w : World.

(** C6 (as the code has it): after a cache miss a found implementation is
    stored under the argument-type tuple, and a later lookup of that tuple
    answers from the cache whatever the registry holds; when nothing is
    found the cache is left as it was. *)
Theorem multi_cache_after_miss (arg_types : list tid)
    (registry : gmap (list tyobj) pyfunc) (cache : gmap (list tid) pyfunc) :
  cache !! arg_types = None ->
  let found := fst (_find_implementation_multi w arg_types registry cache) in
  let cache' := snd (_find_implementation_multi w arg_types registry cache) in
  found = resolve_multi w registry arg_types /\
  match found with
  | Some f =>
      cache' = <[arg_types := f]> cache /\
      forall registry', _find_implementation_multi w arg_types registry' cache' = (Some f, cache')
  | None => cache' = cache
  end.
Proof.
  intros Hmiss found cache'. subst found cache'.
  split; [apply find_multi_miss; exact Hmiss|].
  rewrite (find_multi_miss_cache w registry cache arg_types Hmiss).
  destruct (fst (_find_implementation_multi w arg_types registry cache)) as [f|];
    [|reflexivity].
  split; [reflexivity|]. intros registry'.
  unfold _find_implementation_multi. rewrite lookup_insert_eq. reflexivity.
Qed.

End MultiCache.

Lemma multi_cache_after_miss_witness :
  let registry : gmap (list tyobj) pyfunc :=
    <[ [TClass Examples.Base; TClass Examples.Base] := Examples.on_Base_Base ]> ∅ in
  (∅ : gmap (list tid) pyfunc) !! [Examples.A; Examples.B] = None /\
  snd (_find_implementation_multi Examples.hierarchy [Examples.A; Examples.B] registry ∅)
  = <[ [Examples.A; Examples.B] := Examples.on_Base_Base ]> ∅.
Proof.
  intros registry.
  assert (Hmiss : (∅ : gmap (list tid) pyfunc) !! [Examples.A; Examples.B] = None)
    by apply lookup_empty.
  split; [exact Hmiss|].
  pose proof (multi_cache_after_miss Examples.hierarchy [Examples.A; Examples.B]
                registry ∅ Hmiss) as [Hfound Hcache].
  assert (Hres : resolve_multi Examples.hierarchy registry [Examples.A; Examples.B]
                 = Some Examples.on_Base_Base) by (vm_compute; reflexivity).
  rewrite Hres in Hfound. rewrite Hfound in Hcache. exact (proj1 Hcache).
Defined.

(** C6, as stated, fails: a search that finds nothing stores nothing, so
    the tuple is still absent from the cache afterwards. *)
Lemma multi_miss_not_cached :
  let registry : gmap (list tyobj) pyfunc :=
    <[ [TClass Examples.B; TClass Examples.A] := Examples.on_A_B ]> ∅ in
  _find_implementation_multi Examples.hierarchy [Examples.A; Examples.B] registry ∅
    = (None, ∅) /\
  snd (_find_implementation_multi Examples.hierarchy [Examples.A; Examples.B] registry ∅)
    !! [Examples.A; Examples.B] = None.
Proof. split; vm_compute; reflexivity. Qed.

(** ** Errors of a call *)

Section CallErrors.

Variable w : World.

(** C7: a call without arguments raises the precondition error at once;
    [require] without objects has no such guard and fails on [objs[0]]. *)
Theorem zero_arguments (self : TraitDispatcher) :
  cr_outcome (call w self []) =
    Raises (TypeError (_name self ++ "() requires at least one argument")) /\
  cr_warnings (call w self []) = [] /\
  cr_self (call w self []) = self /\
  require w self [] = (Raise (IndexError "tuple index out of range"), self).
Proof.
  repeat split. unfold require. simpl.
  rewrite andb_false_r. reflexivity.
Qed.


End CallErrors.

(** ** Cache coherence *)

(** An empty cache holds nothing, so it is coherent with any registry. *)
Ltac empty_cache :=
  let H := fresh "H" in
  intros ? ? H; cbn in H; rewrite lookup_empty in H; discriminate H.

Section Coherence.

Variable w : World.

Lemma find_single_coherent reg cache (t : tid) :
  single_ok w reg cache ->
  fst (_find_implementation_single w t reg cache) = resolve_single w reg t /\
  single_ok w reg (snd (_find_implementation_single w t reg cache)).
Proof.
  intros Hok. unfold _find_implementation_single.
  destruct (cache !! t) as [f|] eqn:Hc; cbn [fst snd].
  - split; [symmetry; apply Hok; exact Hc | exact Hok].
  - unfold resolve_single.
    destruct (first_registered reg (mro w t)) as [f|] eqn:Hr; cbn [fst snd].
    + split; [reflexivity|]. intros t' f' Hl.
      destruct (decide (t = t')) as [<-|Hne].
      * rewrite lookup_insert_eq in Hl. unfold resolve_single. congruence.
      * rewrite lookup_insert_ne in Hl by exact Hne. apply Hok. exact Hl.
    + split; [reflexivity | exact Hok].
Qed.

Lemma find_multi_coherent reg cache (ts : list tid) :
  multi_ok w reg cache ->
  fst (_find_implementation_multi w ts reg cache) = resolve_multi w reg ts /\
  multi_ok w reg (snd (_find_implementation_multi w ts reg cache)).
Proof.
  intros Hok. destruct (cache !! ts) as [f|] eqn:Hc.
  - unfold _find_implementation_multi. rewrite Hc. cbn [fst snd].
    split; [symmetry; apply Hok; exact Hc | exact Hok].
  - split; [apply find_multi_miss; exact Hc|].
    pose proof (find_multi_miss w reg cache ts Hc) as Hfound.
    rewrite (find_multi_miss_cache w reg cache ts Hc), Hfound.
    destruct (resolve_multi w reg ts) as [f|] eqn:Hr; [|exact Hok].
    intros ts' f' Hl. destruct (decide (ts = ts')) as [<-|Hne].
    + rewrite lookup_insert_eq in Hl. congruence.
    + rewrite lookup_insert_ne in Hl by exact Hne. apply Hok. exact Hl.
Qed.

Lemma coherent_trait (default_func : pyfunc) : coherent w (trait default_func).
Proof. split; empty_cache. Qed.

Lemma impl_clears (self self' : TraitDispatcher) (types_ : list tyobj) (func : pyfunc) :
  impl w self types_ func = Ok self' ->
  if Nat.ltb 1 (length types_) then
    _cache_multi self' = ∅ /\ _cache_single self' = _cache_single self /\
    _registry_single self' = _registry_single self
  else
    _cache_single self' = ∅ /\ _cache_multi self' = _cache_multi self /\
    _registry_multi self' = _registry_multi self.
Proof.
  unfold impl. destruct (Nat.ltb 1 (length types_)).
  - destruct (mapM (first_unwrapped w) types_); [|discriminate].
    intros [= <-]. simpl. auto.
  - intros [= <-]. simpl. auto.
Qed.

Lemma impl_coherent (self self' : TraitDispatcher) (types_ : list tyobj) (func : pyfunc) :
  coherent w self -> impl w self types_ func = Ok self' -> coherent w self'.
Proof.
  intros [Hs Hm] Himpl. apply impl_clears in Himpl.
  destruct (Nat.ltb 1 (length types_)); destruct Himpl as (He & Hc & Hr); split.
  - rewrite Hc, Hr. exact Hs.
  - rewrite He. empty_cache.
  - rewrite He. empty_cache.
  - rewrite Hc, Hr. exact Hm.
Qed.

Lemma call_single_coherent (self : TraitDispatcher) (arg : pyval) (args : list pyval) :
  coherent w self ->
  coherent w (cr_self (call_single w self arg args)) /\
  _registry_single (cr_self (call_single w self arg args)) = _registry_single self /\
  _registry_multi (cr_self (call_single w self arg args)) = _registry_multi self /\
  cr_outcome (call_single w self arg args) =
    match resolve_single w (_registry_single self) (type_of arg) with
    | Some f => Invokes f args
    | None => Raises (NotImplementedError
                (if _is_multi_dispatch self && Nat.leb 2 (length args)
                 then "No implementation of '" ++ _name self ++ "' for types: ("
                        ++ type_names w args ++ ")"
                 else "No implementation of '" ++ _name self ++ "' for type: "
                        ++ name_of w (type_of arg))%string)
    end.
Proof.
  intros [Hs Hm]. unfold call_single.
  pose proof (find_single_coherent (_registry_single self) (_cache_single self)
                (type_of arg) Hs) as [Hf Hc].
  destruct (_find_implementation_single w (type_of arg) (_registry_single self)
              (_cache_single self)) as [found cache]. cbn [fst snd] in Hf, Hc. subst found.
  destruct (resolve_single w (_registry_single self) (type_of arg)); simpl;
    (split; [split; [exact Hc | exact Hm] | auto]).
Qed.

Lemma call_coherent (self : TraitDispatcher) (args : list pyval) :
  coherent w self ->
  coherent w (cr_self (call w self args)) /\
  _registry_single (cr_self (call w self args)) = _registry_single self /\
  _registry_multi (cr_self (call w self args)) = _registry_multi self /\
  forall arg rest, args = arg :: rest ->
    cr_outcome (call w self args) =
      match resolve w self args with
      | Some f => Invokes f args
      | None => Raises (NotImplementedError (miss_message w self args))
      end.
Proof.
  intros Hcoh. destruct args as [|arg rest].
  { simpl. repeat split; try apply Hcoh. intros ? ? [=]. }
  unfold call, resolve, miss_message.
  destruct (_is_multi_dispatch self && Nat.leb 2 (length (arg :: rest))) eqn:Hmd.
  - destruct Hcoh as [Hs Hm].
    pose proof (find_multi_coherent (_registry_multi self) (_cache_multi self)
                  (map type_of (arg :: rest)) Hm) as [Hf Hc].
    destruct (_find_implementation_multi w (map type_of (arg :: rest))
                (_registry_multi self) (_cache_multi self)) as [found cache].
    cbn [fst snd] in Hf, Hc. subst found.
    destruct (resolve_multi w (_registry_multi self) (map type_of (arg :: rest))) as [f|].
    + cbn [cr_self cr_outcome]. repeat split; try assumption.
    + pose proof (call_single_coherent (with_cache_multi self cache) arg (arg :: rest))
        as (H1 & H2 & H3 & H4).
      { split; [exact Hs | exact Hc]. }
      repeat split; try apply H1; try assumption.
      intros ? ? _. rewrite H4.
      change (_registry_single (with_cache_multi self cache)) with (_registry_single self).
      change (_is_multi_dispatch (with_cache_multi self cache)) with (_is_multi_dispatch self).
      change (_name (with_cache_multi self cache)) with (_name self).
      rewrite Hmd. reflexivity.
  - pose proof (call_single_coherent self arg (arg :: rest) Hcoh) as (H1 & H2 & H3 & H4).
    repeat split; try apply H1; try assumption.
    intros ? ? _. rewrite H4, Hmd. reflexivity.
Qed.

Lemma require_coherent (self : TraitDispatcher) (objs : list pyval) :
  coherent w self -> coherent w (snd (require w self objs)).
Proof.
  intros Hcoh.
  assert (Hsingle : forall self0, coherent w self0 ->
    coherent w (snd (match objs with
                     | [] => (Raise (IndexError "tuple index out of range"), self0)
                     | obj0 :: _ =>
                         let '(impl, cache) :=
                           _find_implementation_single w (type_of obj0)
                             (_registry_single self0) (_cache_single self0) in
                         (Ok (bool_decide (impl <> None)), with_cache_single self0 cache)
                     end))).
  { intros self0 [Hs Hm]. destruct objs as [|obj0 ?]; [split; assumption|].
    pose proof (find_single_coherent (_registry_single self0) (_cache_single self0)
                  (type_of obj0) Hs) as [_ Hc].
    destruct (_find_implementation_single w (type_of obj0) (_registry_single self0)
                (_cache_single self0)) as [found cache].
    split; [exact Hc | exact Hm]. }
  unfold require. destruct (_is_multi_dispatch self && Nat.leb 2 (length objs)).
  - destruct Hcoh as [Hs Hm].
    pose proof (find_multi_coherent (_registry_multi self) (_cache_multi self)
                  (map type_of objs) Hm) as [_ Hc].
    destruct (_find_implementation_multi w (map type_of objs)
                (_registry_multi self) (_cache_multi self)) as [[f|] cache].
    + split; [exact Hs | exact Hc].
    + apply Hsingle. split; [exact Hs | exact Hc].
  - apply Hsingle. exact Hcoh.
Qed.

Lemma step_coherent (self : TraitDispatcher) (ev : event) :
  coherent w self -> coherent w (step w self ev).
Proof.
  intros Hcoh. destruct ev as [types_ func|args|objs]; simpl.
  - destruct (impl w self types_ func) as [self'|e] eqn:Himpl; [|exact Hcoh].
    eapply impl_coherent; eassumption.
  - apply call_coherent. exact Hcoh.
  - apply require_coherent. exact Hcoh.
Qed.

Lemma after_coherent (default_func : pyfunc) (history : list event) :
  coherent w (after w default_func history).
Proof.
  unfold after. generalize (coherent_trait default_func).
  generalize (trait default_func). induction history as [|ev history IH]; intros self Hcoh.
  - exact Hcoh.
  - simpl. apply IH. apply step_coherent. exact Hcoh.
Qed.

End Coherence.

(** ** Registration invalidates the cache *)

Section Invalidation.

Variable w : World.

Lemma first_registered_after (reg reg' : gmap tyobj pyfunc) (registered : list tyobj)
    (t : tid) (f : pyfunc) (pre post : list tid) :
  (forall x, reg' !! x = if bool_decide (x ∈ registered) then Some f else reg !! x) ->
  TClass t ∈ registered ->
  (forall c, c ∈ pre -> reg !! TClass c = None) ->
  first_registered reg' (pre ++ t :: post) = Some f.
Proof.
  intros Hreg Ht. induction pre as [|c pre IH]; intros Hpre; cbn [app first_registered].
  - rewrite Hreg, bool_decide_eq_true_2 by exact Ht. reflexivity.
  - rewrite Hreg. case_bool_decide; [reflexivity|].
    rewrite (Hpre c) by (by left). apply IH. intros c' Hc'. apply Hpre. by right.
Qed.

Lemma signature_length (types_ : list tyobj) (sig : list tyobj) :
  mapM (first_unwrapped w) types_ = Some sig -> length types_ = length sig.
Proof. intros H. apply mapM_Some in H. eapply Forall2_length. exact H. Qed.

Lemma call_after_single_registration (self : TraitDispatcher) (arg : pyval)
    (types_ : list tyobj) (t : tid) (func : pyfunc) (pre post : list tid) :
  length types_ <= 1 ->
  TClass t ∈ _unwrap_types w types_ ->
  mro w (type_of arg) = pre ++ t :: post ->
  (forall c, c ∈ pre -> _registry_single self !! TClass c = None) ->
  cr_outcome (call w (step w self (EvImpl types_ func)) [arg]) = Invokes func [arg].
Proof.
  intros Hlen Ht Hmro Hpre.
  assert (Hlt : Nat.ltb 1 (length types_) = false) by (apply Nat.ltb_ge; exact Hlen).
  unfold step, impl. rewrite Hlt.
  unfold call. cbn [length Nat.leb]. rewrite andb_false_r.
  unfold call_single, _find_implementation_single. cbn [_cache_single _registry_single].
  rewrite lookup_empty, Hmro.
  rewrite (first_registered_after (_registry_single self) _ (_unwrap_types w types_)
             t func pre post); [reflexivity | | exact Ht | exact Hpre].
  intros x. apply register_all_lookup.
Qed.

Lemma call_after_multi_registration (self : TraitDispatcher) (args : list pyval)
    (types_ : list tyobj) (func : pyfunc) :
  2 <= length args ->
  mapM (first_unwrapped w) types_ = Some (map TClass (map type_of args)) ->
  cr_outcome (call w (step w self (EvImpl types_ func)) args) = Invokes func args.
Proof.
  intros Hlen Hsig.
  assert (Hlt : Nat.ltb 1 (length types_) = true).
  { rewrite (signature_length _ _ Hsig), !length_map. apply Nat.ltb_lt. lia. }
  unfold step, impl. rewrite Hlt, Hsig.
  destruct args as [|arg rest]; [simpl in Hlen; lia|].
  unfold call.
  assert (Hmd : _is_multi_dispatch
                  {| _default := _default self; _name := _name self;
                     _registry_single := _registry_single self;
                     _cache_single := _cache_single self;
                     _registry_multi :=
                       <[map TClass (map type_of (arg :: rest)) := func]> (_registry_multi self);
                     _cache_multi := ∅ |} = true).
  { unfold _is_multi_dispatch. cbn [_registry_multi].
    rewrite bool_decide_eq_false_2; [reflexivity | apply insert_non_empty]. }
  rewrite Hmd. replace (Nat.leb 2 (length (arg :: rest))) with true
    by (symmetry; apply Nat.leb_le; exact Hlen).
  cbn [andb]. unfold _find_implementation_multi. cbn [_cache_multi _registry_multi].
  rewrite lookup_empty, lookup_insert_eq. reflexivity.
Qed.

Lemma call_same_types (self : TraitDispatcher) (args args' : list pyval) :
  coherent w self ->
  map type_of args' = map type_of args ->
  forall f, cr_outcome (call w self args) = Invokes f args ->
            cr_outcome (call w self args') = Invokes f args'.
Proof.
  intros Hcoh Hty f Hcall.
  destruct args as [|arg rest]; [discriminate Hcall|].
  destruct args' as [|arg' rest']; [discriminate Hty|].
  pose proof (call_coherent w self (arg :: rest) Hcoh) as (_ & _ & _ & H1).
  pose proof (call_coherent w self (arg' :: rest') Hcoh) as (_ & _ & _ & H2).
  rewrite (H1 _ _ eq_refl) in Hcall. rewrite (H2 _ _ eq_refl).
  assert (Hres : resolve w self (arg' :: rest') = resolve w self (arg :: rest)).
  { unfold resolve. rewrite Hty.
    replace (length (arg' :: rest')) with (length (arg :: rest))
      by (rewrite <- (length_map type_of (arg :: rest)), <- Hty, length_map; reflexivity).
    injection Hty as -> _. reflexivity. }
  rewrite Hres. destruct (resolve w self (arg :: rest)); [|discriminate Hcall].
  injection Hcall as ->. reflexivity.
Qed.

(** C5: in every state a dispatcher can reach, registering clears the
    cache of the registry it writes to, no cached resolution differs from
    what a fresh search finds, and a call made after resolving and then
    registering a more specific implementation invokes the new one: for
    single dispatch an implementation registered for a class of the
    argument's MRO ahead of every class registered so far, for
    multi-dispatch one registered for the tuple of the argument types. *)
Theorem registration_invalidates_cache (default_func : pyfunc) (history : list event) :
  let self := after w default_func history in
  (forall types_ func,
     let registered := step w self (EvImpl types_ func) in
     if Nat.ltb 1 (length types_) then _cache_multi registered = ∅
     else _cache_single registered = ∅) /\
  coherent w self /\
  (forall args, cr_outcome (call w self args) = cr_outcome (call w (clear_caches self) args)) /\
  (forall arg arg' types_ t func pre post,
     type_of arg' = type_of arg ->
     length types_ <= 1 ->
     TClass t ∈ _unwrap_types w types_ ->
     mro w (type_of arg) = pre ++ t :: post ->
     (forall c, c ∈ pre -> _registry_single self !! TClass c = None) ->
     let resolved := step w self (EvCall [arg]) in
     let registered := step w resolved (EvImpl types_ func) in
     cr_outcome (call w registered [arg']) = Invokes func [arg']) /\
  (forall args args' types_ func,
     2 <= length args ->
     map type_of args' = map type_of args ->
     mapM (first_unwrapped w) types_ = Some (map TClass (map type_of args)) ->
     let resolved := step w self (EvCall args) in
     let registered := step w resolved (EvImpl types_ func) in
     cr_outcome (call w registered args') = Invokes func args').
Proof.
  intros self. pose proof (after_coherent w default_func history) as Hcoh.
  fold self in Hcoh. split; [|split; [exact Hcoh|split; [|split]]].
  - intros types_ func registered. subst registered. unfold step.
    destruct (impl_total w self types_ func) as (self' & Himpl & _). rewrite Himpl.
    apply impl_clears in Himpl. destruct (Nat.ltb 1 (length types_)); apply Himpl.
  - intros [|arg rest]; [reflexivity|].
    assert (Hclear : coherent w (clear_caches self)).
    { split; empty_cache. }
    pose proof (call_coherent w self (arg :: rest) Hcoh) as (_ & _ & _ & H1).
    pose proof (call_coherent w (clear_caches self) (arg :: rest) Hclear) as (_ & _ & _ & H2).
    rewrite (H1 _ _ eq_refl), (H2 _ _ eq_refl). reflexivity.
  - intros arg arg' types_ t func pre post Hty Hlen Ht Hmro Hpre resolved registered.
    subst registered.
    apply call_after_single_registration with (t := t) (pre := pre) (post := post).
    + exact Hlen.
    + exact Ht.
    + rewrite Hty. exact Hmro.
    + subst resolved. unfold step.
      pose proof (call_coherent w self [arg] Hcoh) as (_ & Hreg & _). rewrite Hreg. exact Hpre.
  - intros args args' types_ func Hlen Hty Hsig resolved registered. subst registered.
    apply call_after_multi_registration.
    + rewrite <- (length_map type_of args'), Hty, length_map. exact Hlen.
    + rewrite Hty. exact Hsig.
Qed.

End Invalidation.

(** ** Value variants: the [PaymentStatus] scenario *)

Lemma value_variant_eq (w : World) (c : tid) (r1 r2 : ref) (p1 p2 : pyval) (name parent : string) :
  kind_of w c = ValueVariant name parent ->
  py_eq w (VInst r1 c (Some p1)) (VInst r2 c (Some p2)) = py_eq w p1 p2.
Proof.
  intros Hk. cbn [py_eq]. rewrite Hk. rewrite bool_decide_eq_true_2; reflexivity.
Qed.

(** C2 (as the code has it): the payload of [PaymentStatus.Authorized("tx_123")]
    is read through the attribute [value]; its [repr] is
    [PaymentStatus.Authorized('tx_123')], and it equals a second instance
    constructed independently. *)
Theorem payment_status_authorized :
  exists (i1 i2 : pyval) (w1 w2 : World),
    call_class Examples.Authorized [VStr "tx_123"] Examples.payments = (Ok i1, w1) /\
    call_class Examples.Authorized [VStr "tx_123"] w1 = (Ok i2, w2) /\
    getattr w2 i1 "value" = Ok (VStr "tx_123") /\
    py_repr w2 i1 = "PaymentStatus.Authorized('tx_123')" /\
    i1 <> i2 /\
    py_eq w2 i1 i2 = true.
Proof.
  do 4 eexists. split; [vm_compute; reflexivity|]. split; [vm_compute; reflexivity|].
  split; [vm_compute; reflexivity|]. split; [vm_compute; reflexivity|].
  split; [discriminate | vm_compute; reflexivity].
Qed.

(** C2, as stated, fails: the instance has no attribute [payload]. *)
Lemma payment_status_no_payload_attribute :
  exists (i1 : pyval) (w1 : World),
    call_class Examples.Authorized [VStr "tx_123"] Examples.payments = (Ok i1, w1) /\
    getattr w1 i1 "payload"
      = Raise (AttributeError "'Authorized' object has no attribute 'payload'").
Proof. do 2 eexists. split; vm_compute; reflexivity. Qed.

(** ** The class table *)

Section ClassTable.

Lemma class_getattr_own (w : World) (c : tid) (a : string) (ci : class_info) (v : pyval) :
  classes w !! c = Some ci -> c_attrs ci !! a = Some v -> class_getattr w c a = Some v.
Proof.
  intros Hc Ha. unfold class_getattr, mro. cbn [lookup_in_mro].
  rewrite Hc. cbn. rewrite Ha. reflexivity.
Qed.

Lemma class_setattr_exists (w : World) (c c' : tid) (a : string) (v : pyval) :
  is_Some (classes (class_setattr c a v w) !! c') <-> is_Some (classes w !! c').
Proof. cbn [class_setattr classes]. apply lookup_alter_is_Some. Qed.

Lemma class_getattr_setattr_eq (w : World) (c : tid) (a : string) (v : pyval) :
  is_Some (classes w !! c) -> class_getattr (class_setattr c a v w) c a = Some v.
Proof.
  intros [ci Hc]. eapply class_getattr_own.
  - cbn [class_setattr classes]. rewrite lookup_alter_eq, Hc. reflexivity.
  - cbn [c_attrs with_attr]. apply lookup_insert_eq.
Qed.

Lemma new_class_exists (w : World) (name : string) (k : class_kind) (c : tid) :
  is_Some (classes w !! c) -> is_Some (classes (snd (new_class name k w)) !! c).
Proof.
  intros Hc. cbn [new_class snd classes]. apply lookup_insert_is_Some'. right. exact Hc.
Qed.

Lemma unit_new_exists (w : World) (cls c : tid) :
  is_Some (classes w !! c) -> is_Some (classes (snd (unit_new cls w)) !! c).
Proof.
  intros Hc. unfold unit_new. destruct (class_getattr w cls "_instance"); [exact Hc|].
  cbn [object_new snd]. apply class_setattr_exists. exact Hc.
Qed.

Lemma create_variant_exists (w : World) (name parent : string) (vt : annotation) (c : tid) :
  is_Some (classes w !! c) ->
  is_Some (classes (snd (_create_variant name vt parent w)) !! c).
Proof.
  intros Hc. unfold _create_variant, _create_unit_variant, _create_value_variant.
  destruct (_is_unit_variant vt); [apply (new_class_exists w _ _ c Hc)|].
  destruct (_is_existing_class w vt); [|apply (new_class_exists w _ _ c Hc)].
  destruct vt; [exact Hc | apply (new_class_exists w _ _ c Hc) ..].
Qed.

End ClassTable.

(** ** Unwrapping *)

Section Unwrap.

Lemma cases_step_exists (cls c : tid) (item : string * annotation) (st : loop_state) :
  is_Some (classes (world st) !! c) ->
  is_Some (classes (world (cases_step cls item st)) !! c).
Proof.
  intros Hc. destruct item as [name vt]. unfold cases_step.
  pose proof (create_variant_exists (world st) name (name_of (world st) cls) vt c Hc) as Hc1.
  destruct (_create_variant name vt (name_of (world st) cls) (world st)) as [[vc sing] w1].
  cbn [snd] in Hc1. cbn [world]. destruct sing.
  - pose proof (unit_new_exists w1 vc c Hc1) as Hc2.
    destruct (unit_new vc w1) as [inst w2]. apply class_setattr_exists. exact Hc2.
  - apply class_setattr_exists. exact Hc1.
Qed.

Lemma cases_loop_exists (cls c : tid) (annotations : list (string * annotation))
    (st : loop_state) :
  is_Some (classes (world st) !! c) ->
  is_Some (classes (world (cases_loop cls annotations st)) !! c).
Proof.
  revert st. induction annotations as [|item rest IH]; intros st Hc; [exact Hc|].
  cbn [cases_loop fold_left]. apply IH. apply cases_step_exists. exact Hc.
Qed.

Lemma cases_step_variants (cls : tid) (item : string * annotation) (st : loop_state) :
  map snd (variants st) = map TClass (variant_types st) ->
  map snd (variants (cases_step cls item st)) =
  map TClass (variant_types (cases_step cls item st)).
Proof.
  intros Hst. destruct item as [name vt]. unfold cases_step.
  destruct (_create_variant name vt (name_of (world st) cls) (world st)) as [[vc sing] w1].
  cbn [variants variant_types]. rewrite !map_app, Hst. reflexivity.
Qed.

Lemma cases_loop_variants (cls : tid) (annotations : list (string * annotation))
    (st : loop_state) :
  map snd (variants st) = map TClass (variant_types st) ->
  map snd (variants (cases_loop cls annotations st)) =
  map TClass (variant_types (cases_loop cls annotations st)).
Proof.
  revert st. induction annotations as [|item rest IH]; intros st Hst; [exact Hst|].
  cbn [cases_loop fold_left]. apply IH. apply cases_step_variants. exact Hst.
Qed.

(** After [cases], the decorated class holds [_union] and [_variants]. *)
Lemma cases_union_attr (w : World) (cls : tid) (annotations : list (string * annotation)) :
  is_Some (classes w !! cls) ->
  class_getattr (cases cls annotations w) cls "_union" =
  Some (match declared_variant_types cls annotations w with
        | [] => VNone
        | _ => match make_union (declared_variant_types cls annotations w) with
               | Some u => VType u
               | None => VNone
               end
        end).
Proof.
  intros Hc. unfold cases, declared_variant_types.
  apply class_getattr_setattr_eq. apply class_setattr_exists.
  apply cases_loop_exists. exact Hc.
Qed.

Lemma cases_variants_attr (w : World) (cls : tid) (annotations : list (string * annotation)) :
  is_Some (classes w !! cls) ->
  exists vs, class_getattr (cases cls annotations w) cls "_variants" = Some (VVariants vs) /\
             map snd vs = map TClass (declared_variant_types cls annotations w).
Proof.
  intros Hc. unfold cases, declared_variant_types.
  set (st := cases_loop cls annotations {| variants := []; variant_types := []; world := w |}).
  exists (variants st). split; [|apply cases_loop_variants; reflexivity].
  assert (Hst : is_Some (classes (world st) !! cls)) by (apply cases_loop_exists; exact Hc).
  destruct Hst as [ci Hci]. eapply class_getattr_own.
  - cbn [class_setattr classes]. rewrite !lookup_alter_eq, Hci. reflexivity.
  - cbn [c_attrs with_attr]. rewrite lookup_insert_ne by discriminate. apply lookup_insert_eq.
Qed.

Lemma dedup_first_NoDup (seen ts : list tid) :
  NoDup ts -> (forall t, t ∈ ts -> t ∉ seen) -> dedup_first seen ts = ts.
Proof.
  revert seen. induction ts as [|t ts IH]; intros seen Hnd Hseen; [reflexivity|].
  apply NoDup_cons in Hnd as [Hnotin Hnd]. cbn [dedup_first].
  rewrite bool_decide_eq_false_2 by (apply Hseen; by left).
  f_equal. apply IH; [exact Hnd|].
  intros t' Ht' Hin. apply elem_of_cons in Hin as [->|Hin]; [contradiction|].
  apply (Hseen t'); [by right | exact Hin].
Qed.

Variable w : World.

Lemma unwrap_one_plain (t : tyobj) :
  is_union t = false -> carries_union w t = false -> unwrap_one w t = [t].
Proof.
  unfold carries_union, unwrap_one, unwrap_plain. intros -> Hc.
  destruct (union_attr w t) as [[| | |u| | |]|]; try reflexivity.
  rewrite Hc. reflexivity.
Qed.

Lemma unwrap_one_classes (t t' : tyobj) : t' ∈ unwrap_one w t -> is_union t' = false.
Proof.
  assert (Hargs : forall u, t' ∈ get_args u -> is_union t' = false).
  { intros [c|a b r] Hin; cbn [get_args] in Hin; [by apply elem_of_nil in Hin|].
    apply list_elem_of_fmap in Hin as (x & -> & _). reflexivity. }
  assert (Hplain : t' ∈ unwrap_plain t -> is_union t' = false).
  { unfold unwrap_plain. destruct (is_union t) eqn:Hu; [apply Hargs|].
    intros Hin. apply list_elem_of_singleton in Hin as ->. exact Hu. }
  unfold unwrap_one. destruct (union_attr w t) as [[| | |u| | |]|]; try exact Hplain.
  destruct (is_union u); [apply Hargs | exact Hplain].
Qed.

Lemma unwrap_types_classes (l : list tyobj) (t' : tyobj) :
  t' ∈ _unwrap_types w l -> is_union t' = false.
Proof.
  induction l as [|t l IH]; cbn [_unwrap_types]; intros Hin.
  - by apply elem_of_nil in Hin.
  - apply elem_of_app in Hin as [Hin|Hin]; [eapply unwrap_one_classes; exact Hin | auto].
Qed.

Lemma unwrap_types_fixed (l : list tyobj) :
  (forall t, t ∈ l -> is_union t = false /\ carries_union w t = false) ->
  _unwrap_types w l = l.
Proof.
  induction l as [|t l IH]; intros Hl; [reflexivity|]. cbn [_unwrap_types].
  destruct (Hl t) as [Hu Hc]; [by left|].
  rewrite (unwrap_one_plain t Hu Hc), IH; [reflexivity|].
  intros t' Ht'. apply Hl. by right.
Qed.

End Unwrap.

(** What [_unwrap_types] computes in three situations: on a class whose
    [_union], if any, is not a union object; on a declared sum type with
    two or more distinct variant classes, where it gives those classes,
    first occurrences in declaration order; and on its own result when no
    class in it carries a union. *)
Theorem unwrap_types_properties :
  (forall (w : World) (c : tid),
     carries_union w (TClass c) = false -> _unwrap_types w [TClass c] = [TClass c]) /\
  (forall (w : World) (cls : tid) (annotations : list (string * annotation)),
     is_Some (classes w !! cls) ->
     let vts := declared_variant_types cls annotations w in
     2 <= length (dedup_first [] vts) ->
     _unwrap_types (cases cls annotations w) [TClass cls] = map TClass (dedup_first [] vts) /\
     (NoDup vts -> _unwrap_types (cases cls annotations w) [TClass cls] = map TClass vts)) /\
  (forall (w : World) (l : list tyobj),
     (forall t, t ∈ _unwrap_types w l -> carries_union w t = false) ->
     _unwrap_types w (_unwrap_types w l) = _unwrap_types w l).
Proof.
  split; [|split].
  - intros w c Hc. apply unwrap_types_fixed. intros t Ht.
    apply list_elem_of_singleton in Ht as ->. split; [reflexivity | exact Hc].
  - intros w cls annotations Hcls vts Hlen.
    assert (Hgoal : _unwrap_types (cases cls annotations w) [TClass cls]
                    = map TClass (dedup_first [] vts)).
    { cbn [_unwrap_types]. rewrite app_nil_r. unfold unwrap_one. cbn [union_attr].
      rewrite (cases_union_attr w cls annotations Hcls). fold vts.
      unfold make_union. destruct vts as [|v vts']; [cbn in Hlen; lia|].
      destruct (dedup_first [] (v :: vts')) as [|a [|b r]]; cbn [length] in Hlen; try lia.
      reflexivity. }
    split; [exact Hgoal|]. intros Hnd. rewrite Hgoal.
    rewrite dedup_first_NoDup; [reflexivity | exact Hnd |].
    intros t _ Hin. by apply elem_of_nil in Hin.
  - intros w l Hl. apply unwrap_types_fixed. intros t Ht. split.
    + eapply unwrap_types_classes. exact Ht.
    + apply Hl. exact Ht.
Qed.

Lemma unwrap_types_properties_witness :
  carries_union Examples.payments (TClass int_t) = false /\
  _unwrap_types Examples.payments [TClass int_t] = [TClass int_t] /\
  _unwrap_types Examples.payments [TClass Examples.PaymentStatus]
    = map TClass (declared_variant_types Examples.PaymentStatus
        [("Pending", AnnClass NoneType_t); ("Authorized", AnnAny); ("Failed", AnnAny)]
        (snd Examples.with_PaymentStatus)) /\
  _unwrap_types Examples.payments
    (_unwrap_types Examples.payments [TClass Examples.PaymentStatus])
    = _unwrap_types Examples.payments [TClass Examples.PaymentStatus].
Proof.
  destruct unwrap_types_properties as (Hplain & Hsum & Hidem).
  split; [reflexivity|]. split; [apply Hplain; reflexivity|]. split.
  - apply (Hsum (snd Examples.with_PaymentStatus) Examples.PaymentStatus).
    + vm_compute. eauto.
    + vm_compute. lia.
    + apply (bool_decide_unpack (NoDup _)). vm_compute. exact I.
  - apply Hidem. intros t Ht. vm_compute in Ht.
    repeat (apply elem_of_cons in Ht as [->|Ht]; [vm_compute; reflexivity|]).
    by apply elem_of_nil in Ht.
Defined.

(** C4: the code misses the sum type with a single variant.  [cases]
    stores [Union[(Item,)]], which is the class [Item] itself and no union
    object, so [_unwrap_types] does not take the branch for declared sum
    types and returns the sum type instead of its declared variant.
    Hence [impl(Box)] registers [Box] and not [Item], and a call on
    [Box.Item(1)] finds nothing. *)
Lemma unwrap_single_variant_sum_type :
  declared_variant_types Examples.Box [("Item", AnnAny)] (snd Examples.with_Box)
    = [Examples.Item] /\
  class_getattr Examples.boxes Examples.Box "_union" = Some (VType (TClass Examples.Item)) /\
  _unwrap_types Examples.boxes [TClass Examples.Box] = [TClass Examples.Box] /\
  _unwrap_types Examples.boxes [TClass Examples.Box] <> [TClass Examples.Item] /\
  let registered :=
    step Examples.boxes (trait Examples.fallback)
      (EvImpl [TClass Examples.Box] Examples.on_Base) in
  _registry_single registered !! TClass Examples.Box = Some Examples.on_Base /\
  _registry_single registered !! TClass Examples.Item = None /\
  exists inst w1,
    call_class Examples.Item [VInt 1] Examples.boxes = (Ok inst, w1) /\
    cr_outcome (call w1 registered [inst])
      = Raises (NotImplementedError "No implementation of 'encounter' for type: Item") /\
    cr_warnings (call w1 registered [inst])
      = [MissingImplementationWarning "No implementation of 'encounter' for type: Item"].
Proof.
  split; [vm_compute; reflexivity|]. split; [vm_compute; reflexivity|].
  split; [vm_compute; reflexivity|]. split; [vm_compute; discriminate|].
  split; [vm_compute; reflexivity|]. split; [vm_compute; reflexivity|].
  do 2 eexists. split; [vm_compute; reflexivity|]. split; vm_compute; reflexivity.
Qed.

(** Unwrapping is not idempotent when a variant aliases another sum type. *)
Example unwrap_nested_sum_type :
  _unwrap_types Examples.nested (_unwrap_types Examples.nested [TClass Examples.Outer])
  <> _unwrap_types Examples.nested [TClass Examples.Outer].
Proof. vm_compute. discriminate. Qed.

(** The scenario of C5 on the hierarchy [A <: Base]: [on_Base] is resolved
    and cached for [A], then [on_A] is registered and the next call
    invokes it. *)
Lemma registration_invalidates_cache_witness :
  let self := after Examples.hierarchy Examples.fallback
                [EvImpl [TClass Examples.Base] Examples.on_Base] in
  let resolved := step Examples.hierarchy self (EvCall [Examples.an_A]) in
  let registered := step Examples.hierarchy resolved (EvImpl [TClass Examples.A] Examples.on_A) in
  cr_outcome (call Examples.hierarchy self [Examples.an_A])
    = Invokes Examples.on_Base [Examples.an_A] /\
  _cache_single resolved !! Examples.A = Some Examples.on_Base /\
  cr_outcome (call Examples.hierarchy registered [Examples.an_A])
    = Invokes Examples.on_A [Examples.an_A].
Proof.
  intros self resolved registered.
  split; [vm_compute; reflexivity|]. split; [vm_compute; reflexivity|].
  apply (proj1 (proj2 (proj2 (proj2
           (registration_invalidates_cache Examples.hierarchy Examples.fallback
              [EvImpl [TClass Examples.Base] Examples.on_Base]))))
           Examples.an_A Examples.an_A [TClass Examples.A] Examples.A Examples.on_A
           [] [Examples.Base; object_t]).
  - reflexivity.
  - cbn. lia.
  - vm_compute. by left.
  - reflexivity.
  - intros c Hc. by apply elem_of_nil in Hc.
Defined.

(** The scenario of C3 through the dispatcher: with [(A, B)] and
    [(Base, Base)] registered, a call on an [A] and a [B] invokes the
    implementation registered for [(A, B)]. *)
Example exact_match_precedence :
  let self := after Examples.hierarchy Examples.fallback
                [EvImpl [TClass Examples.Base; TClass Examples.Base] Examples.on_Base_Base;
                 EvImpl [TClass Examples.A; TClass Examples.B] Examples.on_A_B] in
  cr_outcome (call Examples.hierarchy self [Examples.an_A; Examples.a_B])
    = Invokes Examples.on_A_B [Examples.an_A; Examples.a_B] /\
  cr_outcome (call Examples.hierarchy self [Examples.a_B; Examples.an_A])
    = Invokes Examples.on_Base_Base [Examples.a_B; Examples.an_A].
Proof. split; vm_compute; reflexivity. Qed.

(** ** Reachable worlds *)

Section WorldInvariant.

Lemma builtins_lookup (c : tid) (ci : class_info) :
  classes builtins !! c = Some ci -> c < next_tid builtins /\ c_kind ci = Plain.
Proof.
  unfold builtins. cbn [classes next_tid]. intros H.
  repeat (apply lookup_insert_Some in H as [[<- <-]|[_ H]];
          [split; [unfold object_t, type_t, NoneType_t, int_t, str_t, dict_t; lia
                  | reflexivity]|]).
  rewrite lookup_empty in H. discriminate.
Qed.

Lemma invariant_builtins : invariant builtins.
Proof.
  split.
  - intros c [ci Hci]. apply (builtins_lookup c ci Hci).
  - eexists. split; [reflexivity|]. split; reflexivity.
  - intros c ci Hci Hk. apply builtins_lookup in Hci as [_ Hp]. contradiction.
  - intros c ci v Hci Hk. apply builtins_lookup in Hci as [_ Hp]. contradiction.
Qed.

Lemma invariant_insert_fresh (w : World) (ci : class_info) (r : ref) :
  invariant w ->
  (c_kind ci <> Plain -> c_ancestors ci = [object_t]) ->
  c_attrs ci = ∅ ->
  invariant {| classes := <[next_tid w := ci]> (classes w);
               next_tid := S (next_tid w);
               next_ref := r |}.
Proof.
  intros [Hfresh (oi & Hobj & Hok & Hoi) Hmro Hinst] Hanc Hattrs. split; cbn [classes next_tid].
  - intros c Hc. apply lookup_insert_is_Some' in Hc as [<-|Hc]; [lia|].
    specialize (Hfresh c Hc). lia.
  - exists oi. split; [|split; assumption].
    rewrite lookup_insert_ne; [exact Hobj|].
    intros Heq. specialize (Hfresh object_t (mk_is_Some _ _ Hobj)). lia.
  - intros c ci' Hc Hk. apply lookup_insert_Some in Hc as [[_ <-]|[_ Hc]]; [auto|].
    eapply Hmro; eassumption.
  - intros c ci' v Hc Hk Hv. apply lookup_insert_Some in Hc as [[_ <-]|[_ Hc]].
    + rewrite Hattrs, lookup_empty in Hv. discriminate.
    + eapply Hinst; eassumption.
Qed.

Lemma invariant_object_new (w : World) (cls : tid) :
  invariant w -> invariant (snd (object_new cls w)).
Proof. intros [? ? ? ?]. split; assumption. Qed.

Lemma kind_of_object (w : World) : invariant w -> kind_of w object_t = Plain.
Proof.
  intros [_ (oi & Hobj & Hok & _) _ _]. unfold kind_of. rewrite Hobj. exact Hok.
Qed.

Lemma invariant_setattr (w : World) (c : tid) (a : string) (v : pyval) :
  invariant w ->
  (c <> object_t \/ a <> "_instance") ->
  (kind_of w c = Plain \/ a <> "_instance" \/ exists r, v = VInst r c None) ->
  invariant (class_setattr c a v w).
Proof.
  intros [Hfresh (oi & Hobj & Hok & Hoi) Hmro Hinst] Hnotobj Hval.
  split; cbn [class_setattr classes next_tid].
  - intros c' Hc'. apply lookup_alter_is_Some in Hc'. auto.
  - destruct (decide (c = object_t)) as [->|Hne].
    + exists (with_attr a v oi). rewrite lookup_alter_eq, Hobj. split; [reflexivity|].
      split; [exact Hok|]. cbn [with_attr c_attrs].
      rewrite lookup_insert_ne; [exact Hoi|]. destruct Hnotobj; congruence.
    + exists oi. rewrite lookup_alter_ne by exact Hne. auto.
  - intros c' ci Hc' Hk. apply lookup_alter_Some in Hc' as [(<- & ci0 & Hc0 & ->)|[_ Hc']].
    + cbn [with_attr c_ancestors c_kind] in *. eapply Hmro; eassumption.
    + eapply Hmro; eassumption.
  - intros c' ci v' Hc' Hk Hv'.
    apply lookup_alter_Some in Hc' as [(<- & ci0 & Hc0 & ->)|[_ Hc']].
    + cbn [with_attr c_attrs c_kind] in *.
      destruct (decide (a = "_instance")) as [->|Hne].
      * rewrite lookup_insert_eq in Hv'. injection Hv' as <-.
        destruct Hval as [Hp|[Hp|Hp]]; [|congruence|exact Hp].
        unfold kind_of in Hp. rewrite Hc0 in Hp. contradiction.
      * rewrite lookup_insert_ne in Hv' by exact Hne. eapply Hinst; eassumption.
    + eapply Hinst; eassumption.
Qed.

Lemma invariant_unit_new (w : World) (cls : tid) :
  invariant w -> kind_of w cls <> Plain -> invariant (snd (unit_new cls w)).
Proof.
  intros Hinv Hk. unfold unit_new.
  destruct (class_getattr w cls "_instance"); [exact Hinv|].
  cbn [object_new snd]. apply invariant_setattr.
  - apply (invariant_object_new w cls Hinv).
  - left. intros ->. apply Hk. apply kind_of_object. exact Hinv.
  - right. right. eauto.
Qed.

Lemma new_class_frame (w : World) (name : string) (k : class_kind) (c : tid) :
  invariant w -> is_Some (classes w !! c) ->
  classes (snd (new_class name k w)) !! c = classes w !! c.
Proof.
  intros Hinv Hc. cbn [new_class snd classes]. apply lookup_insert_ne.
  pose proof (inv_fresh w Hinv c Hc). lia.
Qed.

Lemma invariant_new_class (w : World) (name : string) (k : class_kind) :
  invariant w -> invariant (snd (new_class name k w)).
Proof. intros Hinv. apply invariant_insert_fresh; [exact Hinv | reflexivity ..]. Qed.

Lemma setattr_frame (w : World) (c c' : tid) (a : string) (v : pyval) :
  c <> c' -> classes (class_setattr c a v w) !! c' = classes w !! c'.
Proof. intros Hne. cbn [class_setattr classes]. apply lookup_alter_ne. exact Hne. Qed.

Lemma setattr_entry (w : World) (c : tid) (a : string) (v : pyval) (ci : class_info) :
  classes w !! c = Some ci ->
  classes (class_setattr c a v w) !! c = Some (with_attr a v ci).
Proof. intros Hc. cbn [class_setattr classes]. rewrite lookup_alter_eq, Hc. reflexivity. Qed.

Lemma unit_new_frame (w : World) (cls c : tid) :
  cls <> c -> classes (snd (unit_new cls w)) !! c = classes w !! c.
Proof.
  intros Hne. unfold unit_new. destruct (class_getattr w cls "_instance"); [reflexivity|].
  cbn [object_new snd]. rewrite setattr_frame by exact Hne. reflexivity.
Qed.

Lemma unit_new_singleton (w : World) (c : tid) (name parent : string) (inst : pyval) :
  unit_singleton w c name parent inst -> unit_new c w = (inst, w).
Proof.
  intros (ci & Hc & _ & Hi). unfold unit_new.
  rewrite (class_getattr_own w c "_instance" ci inst Hc Hi). reflexivity.
Qed.

Lemma unit_new_first (w : World) (c : tid) (ci : class_info) :
  invariant w -> classes w !! c = Some ci -> c_kind ci <> Plain ->
  c_attrs ci !! "_instance" = None ->
  unit_new c w =
  (VInst (next_ref w) c None,
   class_setattr c "_instance" (VInst (next_ref w) c None) (snd (object_new c w))).
Proof.
  intros Hinv Hc Hk Hi. unfold unit_new.
  assert (Hnone : class_getattr w c "_instance" = None).
  { unfold class_getattr, mro. rewrite Hc, (inv_variant_mro w Hinv c ci Hc Hk).
    destruct (inv_object w Hinv) as (oi & Hobj & _ & Hoi).
    cbn [lookup_in_mro]. rewrite Hc, Hobj. cbn. rewrite Hi, Hoi. reflexivity. }
  rewrite Hnone. reflexivity.
Qed.

Lemma create_variant_spec (w : World) (name parent : string) (vt : annotation) :
  invariant w ->
  invariant (snd (_create_variant name vt parent w)) /\
  (forall c, is_Some (classes w !! c) ->
             classes (snd (_create_variant name vt parent w)) !! c = classes w !! c) /\
  snd (fst (_create_variant name vt parent w)) = _is_unit_variant vt /\
  next_ref (snd (_create_variant name vt parent w)) = next_ref w /\
  (_is_unit_variant vt = true ->
     fst (fst (_create_variant name vt parent w)) = next_tid w /\
     classes (snd (_create_variant name vt parent w)) !! next_tid w =
       Some {| c_name := name; c_ancestors := [object_t];
               c_kind := UnitVariant name parent; c_attrs := ∅ |}).
Proof.
  intros Hinv. unfold _create_variant, _create_unit_variant, _create_value_variant.
  assert (Hnew : forall k,
    invariant (snd (new_class name k w)) /\
    (forall c, is_Some (classes w !! c) -> classes (snd (new_class name k w)) !! c = classes w !! c)).
  { intros k. split; [apply invariant_new_class; exact Hinv|].
    intros c Hc. apply new_class_frame; assumption. }
  destruct (_is_unit_variant vt) eqn:Hu.
  - destruct (Hnew (UnitVariant name parent)) as [H1 H2].
    cbn [new_class fst snd] in *.
    split; [exact H1|]. split; [exact H2|]. split; [reflexivity|]. split; [reflexivity|].
    intros _. split; [reflexivity|]. cbn [classes]. apply lookup_insert_eq.
  - assert (Hvalue :
      invariant (snd (let '(c, w') := new_class name (ValueVariant name parent) w in
                      (c, false, w'))) /\
      (forall c, is_Some (classes w !! c) ->
         classes (snd (let '(c, w') := new_class name (ValueVariant name parent) w in
                       (c, false, w'))) !! c = classes w !! c) /\
      snd (fst (let '(c, w') := new_class name (ValueVariant name parent) w in
                (c, false, w'))) = false /\
      next_ref (snd (let '(c, w') := new_class name (ValueVariant name parent) w in
                     (c, false, w'))) = next_ref w /\
      (false = true -> fst (fst (let '(c, w') := new_class name (ValueVariant name parent) w in
                (c, false, w'))) = next_tid w /\
         classes (snd (let '(c, w') := new_class name (ValueVariant name parent) w in
                     (c, false, w'))) !! next_tid w =
         Some {| c_name := name; c_ancestors := [object_t];
                 c_kind := UnitVariant name parent; c_attrs := ∅ |})).
    { destruct (Hnew (ValueVariant name parent)) as [H1 H2].
      cbn [new_class fst snd] in *.
      split; [exact H1|]. split; [exact H2|]. split; [reflexivity|]. split; [reflexivity|].
      discriminate. }
    destruct (_is_existing_class w vt); [|exact Hvalue].
    destruct vt; [|exact Hvalue ..].
    cbn [fst snd].
    split; [exact Hinv|]. split; [reflexivity|]. split; [reflexivity|]. split; [reflexivity|].
    discriminate.
Qed.

Lemma cases_step_spec (cls : tid) (name : string) (vt : annotation) (st : loop_state)
    (ci : class_info) :
  invariant (world st) -> cls <> object_t ->
  classes (world st) !! cls = Some ci -> c_kind ci = Plain ->
  invariant (world (cases_step cls (name, vt) st)) /\
  (forall c, c <> cls -> is_Some (classes (world st) !! c) ->
             classes (world (cases_step cls (name, vt) st)) !! c = classes (world st) !! c) /\
  exists val,
    classes (world (cases_step cls (name, vt) st)) !! cls = Some (with_attr name val ci) /\
    (_is_unit_variant vt = true ->
       val = VInst (next_ref (world st)) (next_tid (world st)) None /\
       unit_singleton (world (cases_step cls (name, vt) st)) (next_tid (world st))
         name (name_of (world st) cls) val).
Proof.
  intros Hinv Hobj Hcls Hk. unfold cases_step.
  pose proof (create_variant_spec (world st) name (name_of (world st) cls) vt Hinv)
    as (H1 & H2 & H3 & Href & H4).
  destruct (_create_variant name vt (name_of (world st) cls) (world st)) as [[vc sing] w1].
  cbn [fst snd] in H1, H2, H3, Href, H4. subst sing. cbn [world].
  assert (Hcls1 : classes w1 !! cls = Some ci) by (rewrite H2; eauto).
  assert (Hplain : forall w', classes w' !! cls = Some ci -> kind_of w' cls = Plain).
  { intros w' Hw'. unfold kind_of. rewrite Hw'. exact Hk. }
  destruct (_is_unit_variant vt) eqn:Hu.
  - destruct (H4 eq_refl) as [-> Hentry]. clear H4.
    assert (Hfresh : forall c, is_Some (classes (world st) !! c) -> next_tid (world st) <> c).
    { intros c Hc. pose proof (inv_fresh _ Hinv c Hc). lia. }
    assert (Hvc : next_tid (world st) <> cls) by (apply Hfresh; eauto).
    rewrite (unit_new_first w1 (next_tid (world st)) _ H1 Hentry)
      by (cbn [c_kind c_attrs]; first [discriminate | apply lookup_empty]).
    cbn [object_new snd]. rewrite Href.
    set (inst := VInst (next_ref (world st)) (next_tid (world st)) None).
    set (w2 := class_setattr (next_tid (world st)) "_instance" inst
                 {| classes := classes w1; next_tid := next_tid w1;
                    next_ref := S (next_ref (world st)) |}).
    assert (Hinv2 : invariant w2).
    { apply invariant_setattr.
      - destruct H1. split; assumption.
      - left. apply Hfresh. destruct (inv_object _ Hinv) as (oi & Hoi & _). eauto.
      - right. right. eauto. }
    assert (Hcls2 : classes w2 !! cls = Some ci).
    { unfold w2. rewrite setattr_frame by exact Hvc. exact Hcls1. }
    split; [|split].
    + apply invariant_setattr; [exact Hinv2 | left; exact Hobj | left; apply Hplain; exact Hcls2].
    + intros c Hne Hc. rewrite setattr_frame by congruence.
      unfold w2. rewrite setattr_frame by (apply Hfresh; exact Hc). cbn [classes].
      apply H2. exact Hc.
    + exists inst. split; [apply setattr_entry; exact Hcls2|].
      intros _. split; [reflexivity|].
      eexists. split; [|split].
      * rewrite setattr_frame by congruence. unfold w2. apply setattr_entry. exact Hentry.
      * reflexivity.
      * cbn [with_attr c_attrs]. apply lookup_insert_eq.
  - split; [|split].
    + apply invariant_setattr; [exact H1 | left; exact Hobj | left; apply Hplain; exact Hcls1].
    + intros c Hne Hc. rewrite setattr_frame by congruence. apply H2. exact Hc.
    + eexists. split; [apply setattr_entry; exact Hcls1 | discriminate].
Qed.

Lemma cases_loop_spec (cls : tid) (annotations : list (string * annotation))
    (st : loop_state) (ci : class_info) :
  invariant (world st) -> cls <> object_t ->
  classes (world st) !! cls = Some ci -> c_kind ci = Plain ->
  invariant (world (cases_loop cls annotations st)) /\
  (forall c, c <> cls -> is_Some (classes (world st) !! c) ->
             classes (world (cases_loop cls annotations st)) !! c = classes (world st) !! c) /\
  exists ci',
    classes (world (cases_loop cls annotations st)) !! cls = Some ci' /\
    c_kind ci' = Plain /\
    forall a, a ∉ map fst annotations -> c_attrs ci' !! a = c_attrs ci !! a.
Proof.
  revert st ci. induction annotations as [|[name vt] rest IH]; intros st ci Hinv Hobj Hcls Hk.
  - split; [exact Hinv|]. split; [reflexivity|]. exists ci. auto.
  - cbn [cases_loop fold_left].
    destruct (cases_step_spec cls name vt st ci Hinv Hobj Hcls Hk)
      as (Hinv1 & Hframe1 & val & Hcls1 & _).
    destruct (IH (cases_step cls (name, vt) st) (with_attr name val ci) Hinv1 Hobj Hcls1 Hk)
      as (Hinv2 & Hframe2 & ci' & Hcls2 & Hk2 & Hattrs).
    split; [exact Hinv2|]. split.
    + intros c Hne Hc. unfold cases_loop in Hframe2. rewrite Hframe2; [apply Hframe1; assumption | exact Hne |].
      rewrite Hframe1; assumption.
    + exists ci'. split; [exact Hcls2|]. split; [exact Hk2|].
      intros a Ha. cbn [map fst] in Ha. apply not_elem_of_cons in Ha as [Hne Ha].
      rewrite (Hattrs a Ha). cbn [with_attr c_attrs]. apply lookup_insert_ne. congruence.
Qed.

Lemma user_class_entry (w : World) (cls : tid) :
  user_class w cls ->
  cls <> object_t /\ exists ci, classes w !! cls = Some ci /\ c_kind ci = Plain.
Proof.
  intros (Hge & [ci Hci] & Hk). split.
  - unfold object_t. cbn in Hge. lia.
  - exists ci. split; [exact Hci|]. unfold kind_of in Hk. rewrite Hci in Hk. exact Hk.
Qed.

Lemma cases_spec (w : World) (cls : tid) (annotations : list (string * annotation)) :
  invariant w -> user_class w cls ->
  invariant (cases cls annotations w) /\
  (forall c, c <> cls -> is_Some (classes w !! c) ->
             classes (cases cls annotations w) !! c = classes w !! c).
Proof.
  intros Hinv Huser. destruct (user_class_entry w cls Huser) as (Hobj & ci & Hci & Hk).
  unfold cases.
  destruct (cases_loop_spec cls annotations
              {| variants := []; variant_types := []; world := w |} ci Hinv Hobj Hci Hk)
    as (Hinv1 & Hframe & ci' & Hci' & Hk' & _).
  set (st := cases_loop cls annotations {| variants := []; variant_types := []; world := w |}) in *.
  assert (Hplain : forall w', classes w' !! cls = Some ci' -> kind_of w' cls = Plain).
  { intros w' Hw'. unfold kind_of. rewrite Hw'. exact Hk'. }
  split.
  - apply invariant_setattr; [apply invariant_setattr | |]; try (left; exact Hobj).
    + exact Hinv1.
    + left. apply Hplain. exact Hci'.
    + left. unfold kind_of. rewrite (setattr_entry _ _ _ _ _ Hci'). exact Hk'.
  - intros c Hne Hc. rewrite !setattr_frame by congruence. apply Hframe; assumption.
Qed.

Lemma variant_stable_refl (w : World) : variant_stable w w.
Proof. intros c ci Hc Hk. exists ci. auto. Qed.

Lemma variant_stable_trans (w1 w2 w3 : World) :
  variant_stable w1 w2 -> variant_stable w2 w3 -> variant_stable w1 w3.
Proof.
  intros H12 H23 c ci Hc Hk.
  destruct (H12 c ci Hc Hk) as (ci2 & Hc2 & Hk2 & Hi2).
  destruct (H23 c ci2 Hc2) as (ci3 & Hc3 & Hk3 & Hi3); [congruence|].
  exists ci3. split; [exact Hc3|]. split; [congruence|]. auto.
Qed.

Lemma variant_stable_frame (w w' : World) :
  (forall c ci, classes w !! c = Some ci -> c_kind ci <> Plain ->
                classes w' !! c = classes w !! c) ->
  variant_stable w w'.
Proof.
  intros Hframe c ci Hc Hk. exists ci. rewrite (Hframe c ci Hc Hk). auto.
Qed.

Lemma variant_stable_unit_new (w : World) (cls : tid) :
  variant_stable w (snd (unit_new cls w)).
Proof.
  unfold unit_new. destruct (class_getattr w cls "_instance") eqn:Hget;
    [apply variant_stable_refl|].
  cbn [object_new snd]. intros c ci Hc Hk.
  destruct (decide (cls = c)) as [->|Hne].
  - eexists. split; [apply setattr_entry; exact Hc|]. split; [reflexivity|].
    intros v Hv. rewrite (class_getattr_own w c "_instance" ci v Hc Hv) in Hget. discriminate.
  - exists ci. rewrite setattr_frame by exact Hne. auto.
Qed.

Lemma call_class_world (w : World) (cls : tid) (args : list pyval) :
  snd (call_class cls args w) = w \/
  (exists r, snd (call_class cls args w) = snd (object_new r w)) \/
  (kind_of w cls <> Plain /\ snd (call_class cls args w) = snd (unit_new cls w)).
Proof.
  unfold call_class. destruct (kind_of w cls) eqn:Hk.
  - destruct args; [right; left; exists cls; reflexivity | left; reflexivity].
  - destruct args as [|v [|v' args]]; [left; reflexivity | | left; reflexivity].
    right. left. exists cls. reflexivity.
  - destruct args; [|left; reflexivity]. right. right. split; [discriminate|].
    destruct (unit_new cls w). reflexivity.
Qed.

Lemma call_class_spec (w : World) (cls : tid) (args : list pyval) :
  invariant w ->
  invariant (snd (call_class cls args w)) /\ variant_stable w (snd (call_class cls args w)).
Proof.
  intros Hinv. destruct (call_class_world w cls args) as [->|[[r ->]|[Hk ->]]].
  - split; [exact Hinv | apply variant_stable_refl].
  - split; [apply invariant_object_new; exact Hinv|].
    apply variant_stable_frame. reflexivity.
  - split; [apply invariant_unit_new; assumption | apply variant_stable_unit_new].
Qed.

Lemma run_op_spec (w : World) (o : op) :
  invariant w -> allowed w o ->
  invariant (run_op o w) /\ variant_stable w (run_op o w).
Proof.
  intros Hinv Hallowed. destruct o as [name anc|cls annotations|cls args]; cbn [run_op].
  - cbn [define_class snd]. split.
    + apply invariant_insert_fresh; [exact Hinv | intros H; contradiction H; reflexivity
                                    | reflexivity].
    + apply variant_stable_frame. intros c ci Hc _. cbn [classes].
      apply lookup_insert_ne. pose proof (inv_fresh w Hinv c (mk_is_Some _ _ Hc)). lia.
  - cbn [allowed] in Hallowed. destruct (cases_spec w cls annotations Hinv Hallowed)
      as [Hinv' Hframe].
    split; [exact Hinv'|]. apply variant_stable_frame. intros c ci Hc Hk.
    apply Hframe; [|eauto]. intros ->.
    destruct (user_class_entry w cls Hallowed) as (_ & ci' & Hci' & Hk'). congruence.
  - apply call_class_spec. exact Hinv.
Qed.

Lemma reachable_invariant (w : World) : reachable w -> invariant w.
Proof.
  induction 1 as [|w o _ IH Hallowed]; [apply invariant_builtins|].
  apply run_op_spec; assumption.
Qed.

Lemma later_spec (w w' : World) :
  later w w' -> invariant w -> invariant w' /\ variant_stable w w'.
Proof.
  induction 1 as [w|w w' o _ IH Hallowed]; intros Hinv.
  - split; [exact Hinv | apply variant_stable_refl].
  - destruct (IH Hinv) as [Hinv' Hstable].
    destruct (run_op_spec w' o Hinv' Hallowed) as [Hinv'' Hstable'].
    split; [exact Hinv''|]. eapply variant_stable_trans; eassumption.
Qed.

End WorldInvariant.

(** ** Unit variants are singletons *)

Section Singleton.

Lemma create_variant_next_ref (w : World) (name parent : string) (a : annotation) :
  next_ref (snd (_create_variant name a parent w)) = next_ref w.
Proof.
  unfold _create_variant, _create_unit_variant, _create_value_variant.
  destruct (_is_unit_variant a); [reflexivity|].
  destruct (_is_existing_class w a); [|reflexivity]. destruct a; reflexivity.
Qed.

Lemma unit_new_next_ref (w : World) (c : tid) : next_ref w <= next_ref (snd (unit_new c w)).
Proof.
  unfold unit_new. destruct (class_getattr w c "_instance"); cbn; lia.
Qed.

Lemma cases_step_next_ref (cls : tid) (item : string * annotation) (st : loop_state) :
  next_ref (world st) <= next_ref (world (cases_step cls item st)).
Proof.
  destruct item as [name a]. unfold cases_step.
  pose proof (create_variant_next_ref (world st) name (name_of (world st) cls) a) as Href.
  destruct (_create_variant name a (name_of (world st) cls) (world st)) as [[vc sing] w1].
  cbn [snd] in Href. cbn [world]. destruct sing.
  - pose proof (unit_new_next_ref w1 vc) as Hu. destruct (unit_new vc w1) as [inst w2].
    cbn [snd] in Hu. cbn [class_setattr next_ref]. lia.
  - cbn [class_setattr next_ref]. lia.
Qed.

Lemma cases_loop_next_ref (cls : tid) (annotations : list (string * annotation))
    (st : loop_state) :
  next_ref (world st) <= next_ref (world (cases_loop cls annotations st)).
Proof.
  revert st. induction annotations as [|item rest IH]; intros st; [reflexivity|].
  cbn [cases_loop fold_left]. etrans; [apply (cases_step_next_ref cls item st)|]. apply IH.
Qed.

Lemma cases_step_unit_allocates (cls : tid) (name : string) (st : loop_state) :
  invariant (world st) ->
  next_ref (world (cases_step cls (name, AnnClass NoneType_t) st)) = S (next_ref (world st)).
Proof.
  intros Hinv. unfold cases_step.
  pose proof (create_variant_spec (world st) name (name_of (world st) cls)
                (AnnClass NoneType_t) Hinv) as (H1 & _ & H3 & Href & H4).
  destruct (_create_variant name (AnnClass NoneType_t) (name_of (world st) cls) (world st))
    as [[vc sing] w1].
  cbn [fst snd] in H1, H3, Href, H4. destruct (H4 eq_refl) as [-> Hentry].
  assert (Hsing : sing = true) by (rewrite H3; reflexivity). subst sing.
  rewrite (unit_new_first w1 (next_tid (world st)) _ H1 Hentry)
    by (cbn [c_kind c_attrs]; first [discriminate | apply lookup_empty]).
  cbn [object_new snd world class_setattr next_ref]. rewrite Href. reflexivity.
Qed.

(** What [cases] establishes for a unit variant: a class that is new, an
    instance allocated by the declaration and held by the class, and the
    entry of the decorated class, which holds the instance under the
    variant's name unless that name is one [cases] writes at the end. *)
Lemma cases_declares_unit (w : World) (cls : tid) (pre post : list (string * annotation))
    (name : string) :
  invariant w -> user_class w cls ->
  exists (r : ref) (c : tid) (parent : string),
    classes w !! c = None /\
    next_ref w <= r /\
    r < next_ref (cases cls (pre ++ (name, AnnClass NoneType_t) :: post) w) /\
    unit_singleton (cases cls (pre ++ (name, AnnClass NoneType_t) :: post) w) c name parent
      (VInst r c None) /\
    exists ci,
      classes (cases cls (pre ++ (name, AnnClass NoneType_t) :: post) w) !! cls = Some ci /\
      c_kind ci = Plain /\
      (name ∉ map fst post -> name <> "_variants" -> name <> "_union" ->
       c_attrs ci !! name = Some (VInst r c None)).
Proof.
  intros Hinv Huser.
  destruct (user_class_entry w cls Huser) as (Hobj & ci & Hci & Hk).
  unfold cases, cases_loop. rewrite fold_left_app. cbn [fold_left].
  set (st0 := {| variants := []; variant_types := []; world := w |}).
  fold (cases_loop cls pre st0).
  destruct (cases_loop_spec cls pre st0 ci Hinv Hobj Hci Hk)
    as (Hinv1 & _ & ci1 & Hci1 & Hk1 & _).
  pose proof (cases_loop_next_ref cls pre st0) as Href1.
  pose proof (fun c Hc => cases_loop_exists cls c pre st0 Hc) as Hexists.
  set (st1 := cases_loop cls pre st0) in *.
  destruct (cases_step_spec cls name (AnnClass NoneType_t) st1 ci1 Hinv1 Hobj Hci1 Hk1)
    as (Hinv2 & _ & val & Hci2 & Hunit).
  pose proof (cases_step_unit_allocates cls name st1 Hinv1) as Href2.
  destruct (Hunit eq_refl) as [Hval Hsingle]. clear Hunit.
  set (st2 := cases_step cls (name, AnnClass NoneType_t) st1) in *.
  fold (cases_loop cls post st2).
  destruct (cases_loop_spec cls post st2 (with_attr name val ci1) Hinv2 Hobj Hci2 Hk1)
    as (Hinv3 & Hframe3 & ci3 & Hci3 & Hk3 & Hattrs).
  pose proof (cases_loop_next_ref cls post st2) as Href3.
  set (st3 := cases_loop cls post st2) in *.
  destruct Hsingle as (ui & Hui & Huk & Hinst).
  assert (Hne : next_tid (world st1) <> cls).
  { intros Heq. rewrite Heq in Hui. rewrite Hci2 in Hui. injection Hui as <-.
    cbn [with_attr c_kind] in Huk. congruence. }
  exists (next_ref (world st1)), (next_tid (world st1)), (name_of (world st1) cls).
  rewrite <- Hval. split; [|split; [|split; [|split]]].
  - destruct (classes w !! next_tid (world st1)) as [old|] eqn:Hold; [|reflexivity].
    pose proof (inv_fresh _ Hinv1 _ (Hexists _ (mk_is_Some _ _ Hold))). lia.
  - exact Href1.
  - cbn [class_setattr next_ref]. lia.
  - exists ui. rewrite !setattr_frame by congruence.
    rewrite Hframe3 by eauto. auto.
  - eexists. split; [apply setattr_entry, setattr_entry; exact Hci3|].
    split; [exact Hk3|]. intros Hpost Hv Hu.
    cbn [with_attr c_attrs]. rewrite !lookup_insert_ne by congruence.
    rewrite (Hattrs name Hpost). cbn [with_attr c_attrs]. apply lookup_insert_eq.
Qed.

Lemma later_keeping_later (cls : tid) (w w' : World) : later_keeping cls w w' -> later w w'.
Proof.
  induction 1 as [w|w w' o _ IH Hallowed _]; [apply later_refl|].
  apply later_op; assumption.
Qed.

Lemma plain_entry_kept (w : World) (cls : tid) (ci : class_info) (o : op) :
  invariant w -> classes w !! cls = Some ci -> c_kind ci = Plain ->
  allowed w o -> (forall annotations, o <> OpCases cls annotations) ->
  classes (run_op o w) !! cls = Some ci.
Proof.
  intros Hinv Hci Hk Hallowed Hkeep.
  destruct o as [name anc|cls' annotations|c0 args]; cbn [run_op].
  - cbn [define_class snd classes]. rewrite lookup_insert_ne; [exact Hci|].
    pose proof (inv_fresh w Hinv cls (mk_is_Some _ _ Hci)). lia.
  - cbn [allowed] in Hallowed.
    destruct (cases_spec w cls' annotations Hinv Hallowed) as [_ Hframe].
    rewrite Hframe; [exact Hci | | eauto]. intros ->. eapply Hkeep. reflexivity.
  - destruct (call_class_world w c0 args) as [->|[[r ->]|[Hk0 ->]]]; [exact Hci | exact Hci |].
    rewrite unit_new_frame; [exact Hci|]. intros ->. apply Hk0.
    unfold kind_of. rewrite Hci. exact Hk.
Qed.

Lemma later_keeping_entry (cls : tid) (w w' : World) (ci : class_info) :
  later_keeping cls w w' -> invariant w ->
  classes w !! cls = Some ci -> c_kind ci = Plain ->
  classes w' !! cls = Some ci.
Proof.
  induction 1 as [w|w w' o Hlater IH Hallowed Hkeep]; intros Hinv Hci Hk; [exact Hci|].
  destruct (later_spec w w' (later_keeping_later cls w w' Hlater) Hinv) as [Hinv' _].
  apply plain_entry_kept; auto.
Qed.

Lemma unit_singleton_construct (w : World) (c : tid) (name parent : string) (inst : pyval) :
  unit_singleton w c name parent inst -> call_class c [] w = (Ok inst, w).
Proof.
  intros Hs. pose proof (unit_new_singleton w c name parent inst Hs) as Hnew.
  destruct Hs as (ci & Hc & Hk & _). unfold call_class, kind_of.
  rewrite Hc, Hk, Hnew. reflexivity.
Qed.

Lemma unit_singleton_stable (w w' : World) (c : tid) (name parent : string) (inst : pyval) :
  variant_stable w w' -> unit_singleton w c name parent inst ->
  unit_singleton w' c name parent inst.
Proof.
  intros Hstable (ci & Hc & Hk & Hi).
  destruct (Hstable c ci Hc) as (ci' & Hc' & Hk' & Hi'); [congruence|].
  exists ci'. split; [exact Hc'|]. split; [congruence | auto].
Qed.

(** C10 (as the code has it): declaring a unit variant makes a new class
    and allocates one instance of it.  Every construction from that class,
    in any later world of the program, returns that identical instance and
    allocates nothing.  The attribute of the sum type under the variant's
    name holds the same instance, in every later world in which the sum
    type is not decorated again, unless the variant is named [_variants]
    or [_union], the two attributes [cases] itself writes last. *)
Theorem unit_variant_singleton (w : World) (cls : tid) (pre post : list (string * annotation))
    (name : string) :
  reachable w -> user_class w cls ->
  NoDup (map fst (pre ++ (name, AnnClass NoneType_t) :: post)) ->
  let w' := cases cls (pre ++ (name, AnnClass NoneType_t) :: post) w in
  exists (r : ref) (c : tid),
    classes w !! c = None /\
    (next_ref w <= r /\ r < next_ref w') /\
    (exists parent, kind_of w' c = UnitVariant name parent) /\
    (forall w'', later w' w'' -> call_class c [] w'' = (Ok (VInst r c None), w'')) /\
    (name <> "_variants" -> name <> "_union" ->
     forall w'', later_keeping cls w' w'' ->
                 class_getattr w'' cls name = Some (VInst r c None)).
Proof.
  intros Hreach Huser Hnodup w'.
  pose proof (reachable_invariant w Hreach) as Hinv.
  assert (Hpost : name ∉ map fst post).
  { rewrite map_app in Hnodup. apply NoDup_app in Hnodup as (_ & _ & Hnd).
    cbn [map fst] in Hnd. apply NoDup_cons in Hnd as [Hnotin _]. exact Hnotin. }
  destruct (cases_declares_unit w cls pre post name Hinv Huser)
    as (r & c & parent & Hfresh & Hge & Hlt & Hsingle & ci & Hci & Hk & Hown).
  fold w' in Hlt, Hsingle, Hci. exists r, c.
  assert (Hinv' : invariant w') by (apply cases_spec; assumption).
  split; [exact Hfresh|]. split; [split; assumption|]. split; [|split].
  - exists parent. destruct Hsingle as (ui & Hui & Huk & _). unfold kind_of.
    rewrite Hui. exact Huk.
  - intros w'' Hlater.
    destruct (later_spec w' w'' Hlater Hinv') as [_ Hstable].
    eapply unit_singleton_construct, unit_singleton_stable; eassumption.
  - intros Hv Hu w'' Hkeeping.
    pose proof (later_keeping_entry cls w' w'' ci Hkeeping Hinv' Hci Hk) as Hci''.
    exact (class_getattr_own w'' cls name ci _ Hci'' (Hown Hpost Hv Hu)).
Qed.

End Singleton.

Lemma unit_variant_singleton_witness :
  exists (r : ref) (c : tid),
    (exists parent, kind_of Examples.payments c = UnitVariant "Pending" parent) /\
    (forall w'', later Examples.payments w'' ->
                 call_class c [] w'' = (Ok (VInst r c None), w'')) /\
    (forall w'', later_keeping Examples.PaymentStatus Examples.payments w'' ->
                 class_getattr w'' Examples.PaymentStatus "Pending" = Some (VInst r c None)).
Proof.
  destruct (unit_variant_singleton (snd Examples.with_PaymentStatus) Examples.PaymentStatus []
              [("Authorized", AnnAny); ("Failed", AnnAny)] "Pending")
    as (r & c & _ & _ & Hkind & Hconstruct & Haccess).
  - apply (reach_op builtins (OpDefine "PaymentStatus" [object_t]) reach_builtins I).
  - split; [cbn; lia|]. split; [vm_compute; eauto | reflexivity].
  - apply (bool_decide_unpack (NoDup _)). vm_compute. exact I.
  - exists r, c. split; [exact Hkind|]. split; [exact Hconstruct|].
    apply Haccess; discriminate.
Defined.

(** C10, as stated, fails for the access through the sum type in two
    ways.  A unit variant named [_union] is overwritten by the union that
    [cases] stores last, so the attribute is not the instance that
    construction returns.  And when [cases] is applied to the sum type
    again, the attribute [Pending] holds the instance of a new class,
    while the class declared first still constructs its own instance. *)
Lemma unit_variant_access_not_singleton :
  (exists c inst union_type,
     kind_of Examples.flags c = UnitVariant "_union" "Flags" /\
     call_class c [] Examples.flags = (Ok inst, Examples.flags) /\
     class_getattr Examples.flags Examples.Flags "_union" = Some (VType union_type) /\
     class_getattr Examples.flags Examples.Flags "_union" <> Some inst) /\
  (exists c first second,
     class_getattr Examples.payments Examples.PaymentStatus "Pending" = Some first /\
     type_of first = c /\
     later Examples.payments Examples.payments_again /\
     call_class c [] Examples.payments_again = (Ok first, Examples.payments_again) /\
     class_getattr Examples.payments_again Examples.PaymentStatus "Pending" = Some second /\
     second <> first).
Proof.
  split.
  - exists 7, (VInst 0 7 None). eexists.
    split; [vm_compute; reflexivity|]. split; [vm_compute; reflexivity|].
    split; [vm_compute; reflexivity|]. vm_compute. discriminate.
  - exists 7, (VInst 0 7 None). eexists.
    split; [vm_compute; reflexivity|]. split; [reflexivity|]. split.
    + apply (later_op Examples.payments Examples.payments
               (OpCases Examples.PaymentStatus
                  [("Pending", AnnClass NoneType_t); ("Authorized", AnnAny);
                   ("Failed", AnnAny)])
               (later_refl _)).
      split; [cbn; lia|]. split; [vm_compute; eauto | vm_compute; reflexivity].
    + split; [vm_compute; reflexivity|]. split; [vm_compute; reflexivity|].
      vm_compute. discriminate.
Qed.

(** The same on the running example: the instance stored on the sum type
    and two constructions are one object. *)
Example pending_is_singleton :
  let Pending := match class_getattr Examples.payments Examples.PaymentStatus "Pending" with
                 | Some v => v
                 | None => VNone
                 end in
  let '(first, w1) := call_class (type_of Pending) [] Examples.payments in
  let '(second, w2) := call_class (type_of Pending) [] w1 in
  first = Ok Pending /\ second = Ok Pending /\ w2 = Examples.payments.
Proof. vm_compute. repeat split. Qed.

(** ** Immutability *)

Section Immutability.

Lemma variant_instance_attr (w : World) (cls : tid) (v : pyval) :
  invariant w -> kind_of w cls <> Plain ->
  class_getattr w cls "_instance" = Some v -> exists r, v = VInst r cls None.
Proof.
  intros Hinv Hk Hget. unfold kind_of in Hk.
  destruct (classes w !! cls) as [ci|] eqn:Hc; [|contradiction].
  unfold class_getattr, mro in Hget. rewrite Hc, (inv_variant_mro w Hinv cls ci Hc Hk) in Hget.
  destruct (inv_object w Hinv) as (oi & Hobj & _ & Hoi).
  cbn [lookup_in_mro] in Hget. rewrite Hc, Hobj in Hget. cbn in Hget.
  destruct (c_attrs ci !! "_instance") as [v'|] eqn:Hown.
  - injection Hget as <-. eapply inv_instance; eassumption.
  - rewrite Hoi in Hget. discriminate.
Qed.

Lemma call_class_instance (w w' : World) (cls : tid) (args : list pyval) (inst : pyval) :
  invariant w -> kind_of w cls <> Plain ->
  call_class cls args w = (Ok inst, w') -> type_of inst = cls.
Proof.
  intros Hinv Hk. unfold call_class.
  pose proof (variant_instance_attr w cls) as Hattr.
  destruct (kind_of w cls) eqn:Hkind; [contradiction | |].
  - destruct args as [|v [|v' args]]; intros [= <- _]. reflexivity.
  - destruct args; [|discriminate]. unfold unit_new.
    destruct (class_getattr w cls "_instance") as [v|].
    + intros [= <- _]. destruct (Hattr v Hinv Hk eq_refl) as [r ->]. reflexivity.
    + cbn [object_new]. intros [= <- _]. reflexivity.
Qed.

Lemma variant_stable_kind (w w' : World) (c : tid) :
  variant_stable w w' -> kind_of w c <> Plain -> kind_of w' c = kind_of w c.
Proof.
  intros Hstable Hk. unfold kind_of in *.
  destruct (classes w !! c) as [ci|] eqn:Hc; [|contradiction].
  destruct (Hstable c ci Hc Hk) as (ci' & Hc' & Hk' & _). rewrite Hc'. exact Hk'.
Qed.

(** C9: an instance constructed from a synthesized variant class, value or
    unit, refuses every attribute assignment and deletion with the
    immutability error of its variant, now and in every later world. *)
Theorem variant_instances_immutable (w w' w'' : World) (cls : tid) (args : list pyval)
    (inst : pyval) (attr : string) (val : pyval) :
  reachable w -> kind_of w cls <> Plain ->
  call_class cls args w = (Ok inst, w') -> later w' w'' ->
  exists name parent,
    (kind_of w cls = ValueVariant name parent \/ kind_of w cls = UnitVariant name parent) /\
    setattr w'' inst attr val = AttrRaises (AttributeError (name ++ " is immutable")) /\
    delattr w'' inst attr = AttrRaises (AttributeError (name ++ " is immutable")).
Proof.
  intros Hreach Hk Hcall Hlater.
  pose proof (reachable_invariant w Hreach) as Hinv.
  pose proof (call_class_instance w w' cls args inst Hinv Hk Hcall) as Hty.
  destruct (call_class_spec w cls args Hinv) as [Hinv' Hstable].
  rewrite Hcall in Hinv', Hstable. cbn [snd] in Hinv', Hstable.
  destruct (later_spec w' w'' Hlater Hinv') as [_ Hstable'].
  pose proof (variant_stable_kind w w'' cls
                (variant_stable_trans _ _ _ Hstable Hstable') Hk) as Hkind.
  unfold setattr, delattr. rewrite Hty, Hkind.
  destruct (kind_of w cls) as [|name parent|name parent]; [contradiction | |];
    exists name, parent; auto.
Qed.

End Immutability.

Lemma variant_instances_immutable_witness :
  exists name parent,
    (kind_of Examples.payments Examples.Authorized = ValueVariant name parent \/
     kind_of Examples.payments Examples.Authorized = UnitVariant name parent) /\
    setattr (snd (call_class Examples.Authorized [VStr "tx_123"] Examples.payments))
      (VInst 1 Examples.Authorized (Some (VStr "tx_123"))) "value" (VInt 99)
      = AttrRaises (AttributeError (name ++ " is immutable")) /\
    delattr (snd (call_class Examples.Authorized [VStr "tx_123"] Examples.payments))
      (VInst 1 Examples.Authorized (Some (VStr "tx_123"))) "value"
      = AttrRaises (AttributeError (name ++ " is immutable")).
Proof.
  apply (variant_instances_immutable Examples.payments
           (snd (call_class Examples.Authorized [VStr "tx_123"] Examples.payments))
           (snd (call_class Examples.Authorized [VStr "tx_123"] Examples.payments))
           Examples.Authorized [VStr "tx_123"]).
  - apply (reach_op _ (OpCases Examples.PaymentStatus _)
             (reach_op builtins (OpDefine "PaymentStatus" [object_t]) reach_builtins I)).
    split; [cbn; lia|]. split; [vm_compute; eauto | reflexivity].
  - vm_compute. discriminate.
  - vm_compute. reflexivity.
  - apply later_refl.
Defined.

(** * Further properties of the dispatcher *)

Section SingleDispatch.

Variable w : World.

Lemma first_registered_found (reg : gmap tyobj pyfunc) (pre post : list tid) (c : tid)
    (f : pyfunc) :
  (forall x, x ∈ pre -> reg !! TClass x = None) ->
  reg !! TClass c = Some f ->
  first_registered reg (pre ++ c :: post) = Some f.
Proof.
  intros Hpre Hc. induction pre as [|x pre IH]; cbn [app first_registered].
  - rewrite Hc. reflexivity.
  - rewrite (Hpre x) by (by left). apply IH. intros y Hy. apply Hpre. by right.
Qed.

Lemma first_registered_None (reg : gmap tyobj pyfunc) (l : list tid) :
  first_registered reg l = None <-> forall c, c ∈ l -> reg !! TClass c = None.
Proof.
  induction l as [|x l IH]; cbn [first_registered].
  - split; [intros _ c Hc; by apply elem_of_nil in Hc | reflexivity].
  - destruct (reg !! TClass x) as [f|] eqn:Hx.
    + split; [discriminate|]. intros H. rewrite (H x) in Hx by (by left). discriminate.
    + rewrite IH. split.
      * intros H c Hc. apply elem_of_cons in Hc as [->|Hc]; [exact Hx | auto].
      * intros H c Hc. apply H. by right.
Qed.

(** X1: on a cache miss the single-dispatch finder walks the MRO of the
    argument type and takes the first registered class, storing the result
    under the argument type; when no class of the MRO is registered it
    answers None and stores nothing. *)
Theorem single_resolution_order (arg_type : tid) (registry : gmap tyobj pyfunc)
    (cache : gmap tid pyfunc) :
  cache !! arg_type = None ->
  (forall pre c post f,
     mro w arg_type = pre ++ c :: post ->
     (forall x, x ∈ pre -> registry !! TClass x = None) ->
     registry !! TClass c = Some f ->
     _find_implementation_single w arg_type registry cache
       = (Some f, <[arg_type := f]> cache)) /\
  ((forall c, c ∈ mro w arg_type -> registry !! TClass c = None) <->
   _find_implementation_single w arg_type registry cache = (None, cache)).
Proof.
  intros Hmiss. unfold _find_implementation_single. rewrite Hmiss. split.
  - intros pre c post f Hmro Hpre Hc.
    rewrite Hmro, (first_registered_found registry pre post c f Hpre Hc). reflexivity.
  - rewrite <- first_registered_None.
    destruct (first_registered registry (mro w arg_type)); split; congruence.
Qed.

End SingleDispatch.

Lemma single_resolution_order_witness :
  let registry : gmap tyobj pyfunc := <[TClass Examples.Base := Examples.on_Base]> ∅ in
  (∅ : gmap tid pyfunc) !! Examples.A = None /\
  _find_implementation_single Examples.hierarchy Examples.A registry ∅
    = (Some Examples.on_Base, <[Examples.A := Examples.on_Base]> ∅).
Proof.
  intros registry.
  assert (Hmiss : (∅ : gmap tid pyfunc) !! Examples.A = None) by apply lookup_empty.
  split; [exact Hmiss|].
  apply (proj1 (single_resolution_order Examples.hierarchy Examples.A registry ∅ Hmiss)
           [Examples.A] Examples.Base [object_t]).
  - reflexivity.
  - intros x Hx. apply list_elem_of_singleton in Hx as ->. vm_compute. reflexivity.
  - vm_compute. reflexivity.
Defined.

Section MultiDispatch.

Variable w : World.

Lemma elem_of_cartesian (mros : list (list tid)) (key : list tid) :
  key ∈ cartesian mros <-> Forall2 (fun k m => k ∈ m) key mros.
Proof.
  revert key. induction mros as [|m rest IH]; intros key; cbn [cartesian].
  - rewrite list_elem_of_singleton. split; [intros ->; constructor | intros H; by inversion H].
  - rewrite list_elem_of_In, in_flat_map. split.
    + intros (t & Ht & Hkey). apply in_map_iff in Hkey as (r & <- & Hr).
      constructor; [apply list_elem_of_In; exact Ht | apply IH, list_elem_of_In; exact Hr].
    + intros H. inversion H as [|k m' r rest' Hk Hr]; subst.
      exists k. split; [apply list_elem_of_In; exact Hk|].
      apply in_map. apply list_elem_of_In, IH. exact Hr.
Qed.

Lemma first_hit_None (registry : gmap (list tyobj) pyfunc) (keys : list (list tid)) :
  first_hit registry keys = None <-> forall k, k ∈ keys -> registry !! map TClass k = None.
Proof.
  induction keys as [|x keys IH]; cbn [first_hit].
  - split; [intros _ k Hk; by apply elem_of_nil in Hk | reflexivity].
  - destruct (registry !! map TClass x) as [f|] eqn:Hx.
    + split; [discriminate|]. intros H. rewrite (H x) in Hx by (by left). discriminate.
    + rewrite IH. split.
      * intros H k Hk. apply elem_of_cons in Hk as [->|Hk]; [exact Hx | auto].
      * intros H k Hk. apply H. by right.
Qed.

Lemma first_hit_Some (registry : gmap (list tyobj) pyfunc) (keys : list (list tid))
    (f : pyfunc) :
  first_hit registry keys = Some f ->
  exists k, k ∈ keys /\ registry !! map TClass k = Some f.
Proof.
  induction keys as [|x keys IH]; cbn [first_hit]; [discriminate|].
  destruct (registry !! map TClass x) as [g|] eqn:Hx.
  - intros [= ->]. exists x. split; [by left | exact Hx].
  - intros H. destruct (IH H) as (k & Hk & Hf). exists k. split; [by right | exact Hf].
Qed.

Lemma ancestors_tuple (key arg_types : list tid) :
  Forall2 (fun k m => k ∈ m) key (map (mro w) arg_types) <->
  Forall2 (fun k t => k ∈ mro w t) key arg_types.
Proof. apply Forall2_fmap_r. Qed.

Lemma self_in_cartesian (arg_types : list tid) :
  Forall2 (fun k t => k ∈ mro w t) arg_types arg_types.
Proof.
  induction arg_types as [|t ts IH]; constructor; [|exact IH]. unfold mro. by left.
Qed.

Lemma resolve_multi_Some (registry : gmap (list tyobj) pyfunc) (arg_types : list tid)
    (f : pyfunc) :
  resolve_multi w registry arg_types = Some f ->
  exists key, Forall2 (fun k t => k ∈ mro w t) key arg_types /\
              registry !! map TClass key = Some f.
Proof.
  unfold resolve_multi. destruct (registry !! map TClass arg_types) as [g|] eqn:Hexact.
  - intros [= ->]. exists arg_types. split; [apply self_in_cartesian | exact Hexact].
  - rewrite search_mro_first_hit, map_app_nil. intros Hf.
    apply first_hit_Some in Hf as (key & Hkey & Hreg).
    exists key. split; [|exact Hreg]. apply ancestors_tuple, elem_of_cartesian. exact Hkey.
Qed.

Lemma resolve_multi_None (registry : gmap (list tyobj) pyfunc) (arg_types : list tid) :
  resolve_multi w registry arg_types = None <->
  forall key, Forall2 (fun k t => k ∈ mro w t) key arg_types ->
              registry !! map TClass key = None.
Proof.
  unfold resolve_multi. split.
  - destruct (registry !! map TClass arg_types); [discriminate|].
    rewrite search_mro_first_hit, map_app_nil, first_hit_None.
    intros H key Hkey. apply H, elem_of_cartesian, ancestors_tuple. exact Hkey.
  - intros H. rewrite (H arg_types (self_in_cartesian arg_types)).
    rewrite search_mro_first_hit, map_app_nil, first_hit_None.
    intros key Hkey. apply H, ancestors_tuple, elem_of_cartesian. exact Hkey.
Qed.

(** X2: on a cache miss the multi-dispatch finder answers with an
    implementation registered for a tuple of the same length as the
    arguments whose class at every position is in the MRO of the argument
    type at that position; it answers None exactly when no such tuple is
    registered.  So a registration for [(A, B)] resolves a call on
    [(B, A)] only if [A] is in the MRO of [B] and [B] in the MRO of [A]. *)
Theorem multi_resolution_complete (arg_types : list tid)
    (registry : gmap (list tyobj) pyfunc) (cache : gmap (list tid) pyfunc) :
  cache !! arg_types = None ->
  (forall f, fst (_find_implementation_multi w arg_types registry cache) = Some f ->
     exists key, Forall2 (fun k t => k ∈ mro w t) key arg_types /\
                 registry !! map TClass key = Some f) /\
  (fst (_find_implementation_multi w arg_types registry cache) = None <->
   forall key, Forall2 (fun k t => k ∈ mro w t) key arg_types ->
               registry !! map TClass key = None).
Proof.
  intros Hmiss. rewrite (find_multi_miss w registry cache arg_types Hmiss).
  split; [apply resolve_multi_Some | apply resolve_multi_None].
Qed.

End MultiDispatch.

Lemma multi_resolution_complete_witness :
  let registry : gmap (list tyobj) pyfunc :=
    <[ [TClass Examples.A; TClass Examples.B] := Examples.on_A_B ]> ∅ in
  (∅ : gmap (list tid) pyfunc) !! [Examples.B; Examples.A] = None /\
  fst (_find_implementation_multi Examples.hierarchy [Examples.B; Examples.A] registry ∅)
    = None.
Proof.
  intros registry.
  assert (Hmiss : (∅ : gmap (list tid) pyfunc) !! [Examples.B; Examples.A] = None)
    by apply lookup_empty.
  split; [exact Hmiss|].
  apply (proj2 (multi_resolution_complete Examples.hierarchy [Examples.B; Examples.A]
                  registry ∅ Hmiss)).
  intros key Hkey. unfold registry. apply lookup_insert_None. split; [apply lookup_empty|].
  intros Heq. destruct key as [|k1 [|k2 [|]]]; try discriminate Heq.
  injection Heq as <- <-. inversion Hkey as [|? ? ? ? Hk _]; subst.
  vm_compute in Hk. repeat (apply elem_of_cons in Hk as [Hk|Hk]; [discriminate Hk|]).
  by apply elem_of_nil in Hk.
Defined.

Section RequireAndCheck.

Variable w : World.

Lemma require_call (self : TraitDispatcher) (obj : pyval) (rest : list pyval) :
  (exists f, cr_outcome (call w self (obj :: rest)) = Invokes f (obj :: rest) /\
             cr_warnings (call w self (obj :: rest)) = [] /\
             require w self (obj :: rest) = (Ok true, cr_self (call w self (obj :: rest)))) \/
  (cr_outcome (call w self (obj :: rest))
     = Raises (NotImplementedError (miss_message w self (obj :: rest))) /\
   require w self (obj :: rest) = (Ok false, cr_self (call w self (obj :: rest)))).
Proof.
  assert (Hsingle : forall self0,
    _name self0 = _name self -> _registry_multi self0 = _registry_multi self ->
    (exists f, cr_outcome (call_single w self0 obj (obj :: rest)) = Invokes f (obj :: rest) /\
               cr_warnings (call_single w self0 obj (obj :: rest)) = [] /\
               (let '(impl, cache) :=
                  _find_implementation_single w (type_of obj)
                    (_registry_single self0) (_cache_single self0) in
                (Ok (bool_decide (impl <> None)), with_cache_single self0 cache))
               = (Ok true, cr_self (call_single w self0 obj (obj :: rest)))) \/
    (cr_outcome (call_single w self0 obj (obj :: rest))
       = Raises (NotImplementedError (miss_message w self (obj :: rest))) /\
     (let '(impl, cache) :=
        _find_implementation_single w (type_of obj)
          (_registry_single self0) (_cache_single self0) in
      (Ok (bool_decide (impl <> None)), with_cache_single self0 cache))
     = (Ok false, cr_self (call_single w self0 obj (obj :: rest))))).
  { intros self0 Hname Hreg. unfold call_single.
    destruct (_find_implementation_single w (type_of obj) (_registry_single self0)
                (_cache_single self0)) as [[f|] cache]; cbn [cr_outcome cr_warnings cr_self].
    - left. exists f. split; [reflexivity|]. split; [reflexivity|].
      rewrite bool_decide_eq_true_2 by discriminate. reflexivity.
    - right. split.
      + unfold miss_message, _is_multi_dispatch. cbn [_registry_multi _name with_cache_single].
        rewrite Hname, Hreg. reflexivity.
      + rewrite bool_decide_eq_false_2 by (intros H; apply H; reflexivity). reflexivity. }
  unfold call, require.
  destruct (_is_multi_dispatch self && Nat.leb 2 (length (obj :: rest))).
  - destruct (_find_implementation_multi w (map type_of (obj :: rest))
                (_registry_multi self) (_cache_multi self)) as [[f|] cache].
    + left. exists f. cbn [cr_outcome cr_warnings cr_self]. auto.
    + apply Hsingle; reflexivity.
  - apply Hsingle; reflexivity.
Qed.

(** X3: for one or more objects [require] answers True exactly when a call
    on them would invoke an implementation, False exactly when the call
    would raise the unimplemented error; it never raises or warns, and it
    leaves the dispatcher in the state the call leaves it in. *)
Theorem require_agrees_with_call (self : TraitDispatcher) (obj : pyval) (rest : list pyval) :
  exists b : bool,
    require w self (obj :: rest) = (Ok b, cr_self (call w self (obj :: rest))) /\
    (b = true <-> exists f, cr_outcome (call w self (obj :: rest)) = Invokes f (obj :: rest)) /\
    (b = false <-> exists msg,
        cr_outcome (call w self (obj :: rest)) = Raises (NotImplementedError msg)).
Proof.
  destruct (require_call self obj rest) as [(f & Hout & _ & Hreq)|[Hout Hreq]].
  - exists true. split; [exact Hreq|]. split.
    + split; [eauto | reflexivity].
    + split; [discriminate|]. intros [msg Hmsg]. rewrite Hout in Hmsg. discriminate.
  - exists false. split; [exact Hreq|]. split.
    + split; [discriminate|]. intros [f Hf]. rewrite Hout in Hf. discriminate.
    + split; [eauto | reflexivity].
Qed.

(** X4: for one or more objects [check] returns normally exactly when a
    call would invoke an implementation; otherwise it raises a TypeError
    whose text is that of the unimplemented error the call would raise.
    Either way it ends in the state the call ends in. *)
Theorem check_agrees_with_call (self : TraitDispatcher) (obj : pyval) (rest : list pyval) :
  snd (check w self (obj :: rest)) = cr_self (call w self (obj :: rest)) /\
  ((exists f, cr_outcome (call w self (obj :: rest)) = Invokes f (obj :: rest) /\
              fst (check w self (obj :: rest)) = Ok tt) \/
   (cr_outcome (call w self (obj :: rest))
      = Raises (NotImplementedError (miss_message w self (obj :: rest))) /\
    fst (check w self (obj :: rest))
      = Raise (TypeError (miss_message w self (obj :: rest))))).
Proof.
  assert (Hstate : _name (cr_self (call w self (obj :: rest))) = _name self /\
                   _registry_multi (cr_self (call w self (obj :: rest))) = _registry_multi self).
  { unfold call, call_single.
    destruct (_is_multi_dispatch self && Nat.leb 2 (length (obj :: rest))).
    - destruct (_find_implementation_multi w (map type_of (obj :: rest))
                  (_registry_multi self) (_cache_multi self)) as [[f|] cache].
      + split; reflexivity.
      + destruct (_find_implementation_single w (type_of obj)
                    (_registry_single (with_cache_multi self cache))
                    (_cache_single (with_cache_multi self cache))) as [[f|] c]; split; reflexivity.
    - destruct (_find_implementation_single w (type_of obj) (_registry_single self)
                  (_cache_single self)) as [[f|] c]; split; reflexivity. }
  destruct Hstate as [Hname Hreg].
  unfold check.
  destruct (require_call self obj rest) as [(f & Hout & _ & Hreq)|[Hout Hreq]]; rewrite Hreq.
  - split; [reflexivity|]. left. exists f. split; [exact Hout | reflexivity].
  - unfold miss_message, _is_multi_dispatch in *. rewrite Hname, Hreg.
    destruct (negb (bool_decide (_registry_multi self = ∅)) && Nat.leb 2 (length (obj :: rest)));
      (split; [reflexivity|]; right; split; [exact Hout | reflexivity]).
Qed.

End RequireAndCheck.

Section Precedence.

Variable w : World.

(** X5: in every state a dispatcher can reach, a call with two or more
    arguments invokes the implementation registered for the tuple of the
    argument types whatever the single-dispatch registry holds; and when
    no registered signature matches the argument types it falls back to
    single dispatch on the first argument, passing all the arguments on. *)
Theorem multi_dispatch_precedence (default_func : pyfunc) (history : list event)
    (arg : pyval) (rest : list pyval) :
  let self := after w default_func history in
  let args := arg :: rest in
  1 <= length rest ->
  (forall f, _registry_multi self !! map TClass (map type_of args) = Some f ->
             cr_outcome (call w self args) = Invokes f args) /\
  ((forall key, Forall2 (fun k t => k ∈ mro w t) key (map type_of args) ->
                _registry_multi self !! map TClass key = None) ->
   forall pre c post g,
     mro w (type_of arg) = pre ++ c :: post ->
     (forall x, x ∈ pre -> _registry_single self !! TClass x = None) ->
     _registry_single self !! TClass c = Some g ->
     cr_outcome (call w self args) = Invokes g args).
Proof.
  intros self args Hlen.
  pose proof (after_coherent w default_func history) as Hcoh. fold self in Hcoh.
  pose proof (call_coherent w self args Hcoh) as (_ & _ & _ & Hcall).
  specialize (Hcall arg rest eq_refl). rewrite Hcall. unfold resolve, args.
  assert (Hlen2 : Nat.leb 2 (length (arg :: rest)) = true)
    by (apply Nat.leb_le; cbn [length]; lia).
  rewrite Hlen2, andb_true_r. split.
  - intros f Hf.
    assert (Hmd : _is_multi_dispatch self = true).
    { unfold _is_multi_dispatch. rewrite bool_decide_eq_false_2; [reflexivity|].
      intros Hempty. rewrite Hempty, lookup_empty in Hf. discriminate. }
    rewrite Hmd. unfold resolve_multi. rewrite Hf. reflexivity.
  - intros Hnone pre c post g Hmro Hpre Hc.
    assert (Hmulti : (if _is_multi_dispatch self
                      then resolve_multi w (_registry_multi self) (map type_of (arg :: rest))
                      else None) = None).
    { destruct (_is_multi_dispatch self); [|reflexivity].
      apply resolve_multi_None. exact Hnone. }
    rewrite Hmulti. unfold resolve_single.
    rewrite Hmro, (first_registered_found _ pre post c g Hpre Hc). reflexivity.
Qed.

End Precedence.

Lemma multi_dispatch_precedence_witness :
  let history :=
    [EvImpl [TClass Examples.A] Examples.on_A;
     EvImpl [TClass Examples.A; TClass Examples.B] Examples.on_A_B] in
  let self := after Examples.hierarchy Examples.fallback history in
  1 <= length [Examples.a_B] /\
  cr_outcome (call Examples.hierarchy self [Examples.an_A; Examples.a_B])
    = Invokes Examples.on_A_B [Examples.an_A; Examples.a_B].
Proof.
  intros history self. split; [cbn; lia|].
  apply (proj1 (multi_dispatch_precedence Examples.hierarchy Examples.fallback history
                  Examples.an_A [Examples.a_B] (le_n 1))).
  vm_compute. reflexivity.
Defined.

Section RegistryInvariants.

Variable w : World.

Lemma find_single_cache_grows (t : tid) (reg : gmap tyobj pyfunc) (cache : gmap tid pyfunc) :
  cache ⊆ snd (_find_implementation_single w t reg cache).
Proof.
  unfold _find_implementation_single. destruct (cache !! t) eqn:Hc; [reflexivity|].
  destruct (first_registered reg (mro w t)); [|reflexivity].
  cbn [snd]. apply insert_subseteq. exact Hc.
Qed.

Lemma find_multi_cache_grows (ts : list tid) (reg : gmap (list tyobj) pyfunc)
    (cache : gmap (list tid) pyfunc) :
  cache ⊆ snd (_find_implementation_multi w ts reg cache).
Proof.
  unfold _find_implementation_multi. destruct (cache !! ts) eqn:Hc; [reflexivity|].
  destruct (reg !! map TClass ts); [cbn [snd]; apply insert_subseteq; exact Hc|].
  destruct (search_mro reg (map (mro w) ts) []); [|reflexivity].
  cbn [snd]. apply insert_subseteq. exact Hc.
Qed.

Lemma extends_refl (self : TraitDispatcher) : extends self self.
Proof. repeat split; reflexivity. Qed.

Lemma extends_single (self : TraitDispatcher) (t : tid) :
  extends self
    (with_cache_single self
       (snd (_find_implementation_single w t (_registry_single self) (_cache_single self)))).
Proof.
  repeat split; try reflexivity. cbn [with_cache_single _cache_single].
  apply find_single_cache_grows.
Qed.

Lemma extends_multi (self : TraitDispatcher) (ts : list tid) :
  extends self
    (with_cache_multi self
       (snd (_find_implementation_multi w ts (_registry_multi self) (_cache_multi self)))).
Proof.
  repeat split; try reflexivity. cbn [with_cache_multi _cache_multi].
  apply find_multi_cache_grows.
Qed.

Lemma extends_trans (s1 s2 s3 : TraitDispatcher) :
  extends s1 s2 -> extends s2 s3 -> extends s1 s3.
Proof.
  intros (H1 & H2 & H3 & H4 & H5 & H6) (K1 & K2 & K3 & K4 & K5 & K6).
  repeat split; try congruence; etrans; eassumption.
Qed.

Lemma call_single_extends (self : TraitDispatcher) (arg : pyval) (args : list pyval) :
  extends self (cr_self (call_single w self arg args)).
Proof.
  unfold call_single. pose proof (extends_single self (type_of arg)) as H.
  destruct (_find_implementation_single w (type_of arg) (_registry_single self)
              (_cache_single self)) as [[f|] cache]; exact H.
Qed.

Lemma call_extends (self : TraitDispatcher) (args : list pyval) :
  extends self (cr_self (call w self args)).
Proof.
  unfold call. destruct args as [|arg rest]; [apply extends_refl|].
  destruct (_is_multi_dispatch self && Nat.leb 2 (length (arg :: rest)));
    [|apply call_single_extends].
  pose proof (extends_multi self (map type_of (arg :: rest))) as H.
  destruct (_find_implementation_multi w (map type_of (arg :: rest))
              (_registry_multi self) (_cache_multi self)) as [[f|] cache]; [exact H|].
  eapply extends_trans; [exact H | apply call_single_extends].
Qed.

Lemma require_extends (self : TraitDispatcher) (objs : list pyval) :
  extends self (snd (require w self objs)).
Proof.
  destruct objs as [|obj rest].
  - unfold require. cbn [length Nat.leb]. rewrite andb_false_r. apply extends_refl.
  - destruct (require_call w self obj rest) as [(f & _ & _ & ->)|[_ ->]]; apply call_extends.
Qed.

(** X6: resolving never touches what was registered and never forgets a
    cached resolution: after [call], [require] or [check] the dispatcher
    has the same name, default and registries, and each cache still holds
    every entry it held. *)
Theorem resolution_preserves_registries (self : TraitDispatcher) (args : list pyval) :
  extends self (cr_self (call w self args)) /\
  extends self (snd (require w self args)) /\
  extends self (snd (check w self args)).
Proof.
  split; [apply call_extends|]. split; [apply require_extends|].
  unfold check. pose proof (require_extends self args) as H.
  destruct (require w self args) as [[[|]|e] self']; cbn [snd] in H; try exact H.
  destruct (_is_multi_dispatch self' && Nat.leb 2 (length args)); [exact H|].
  destruct args; exact H.
Qed.

Lemma first_unwrapped_class (t u : tyobj) :
  first_unwrapped w t = Some u -> is_union u = false.
Proof.
  unfold first_unwrapped. intros H. apply (unwrap_types_classes w [t] u).
  destruct (_unwrap_types w [t]) as [|x l]; [discriminate|].
  injection H as ->. by left.
Qed.

Lemma impl_keys (self self' : TraitDispatcher) (types_ : list tyobj) (func : pyfunc) :
  keys_are_classes self -> impl w self types_ func = Ok self' -> keys_are_classes self'.
Proof.
  intros [Hs Hm]. unfold impl. destruct (Nat.ltb 1 (length types_)) eqn:Hlen.
  - destruct (mapM (first_unwrapped w) types_) as [sig|] eqn:Hsig; [|discriminate].
    intros [= <-]. split; [exact Hs|]. cbn [_registry_multi]. intros sig' f Hf.
    apply lookup_insert_Some in Hf as [[<- _]|[_ Hf]]; [|eapply Hm; exact Hf].
    apply mapM_Some in Hsig. split.
    + rewrite <- (Forall2_length _ _ _ Hsig). apply Nat.ltb_lt in Hlen. lia.
    + clear Hlen. induction Hsig as [|t u ts us Htu _ IH]; constructor; [|exact IH].
      eapply first_unwrapped_class. exact Htu.
  - intros [= <-]. split; [|exact Hm]. cbn [_registry_single]. intros t f.
    rewrite register_all_lookup. case_bool_decide as Hin; [|apply Hs].
    intros _. eapply unwrap_types_classes. exact Hin.
Qed.

Lemma step_keys (self : TraitDispatcher) (ev : event) :
  keys_are_classes self -> keys_are_classes (step w self ev).
Proof.
  intros Hkeys. destruct ev as [types_ func|args|objs]; cbn [step].
  - destruct (impl w self types_ func) as [self'|e] eqn:Himpl; [|exact Hkeys].
    eapply impl_keys; eassumption.
  - destruct (call_extends self args) as (_ & _ & Hs & Hm & _).
    unfold keys_are_classes. rewrite Hs, Hm. exact Hkeys.
  - destruct (require_extends self objs) as (_ & _ & Hs & Hm & _).
    unfold keys_are_classes. rewrite Hs, Hm. exact Hkeys.
Qed.

(** X7: whatever is registered, by classes, unions or sum types, the keys
    of the single-dispatch registry are classes, never union objects, and
    every multi-dispatch signature is a tuple of two or more classes. *)
Theorem registry_keys_are_classes (default_func : pyfunc) (history : list event) :
  keys_are_classes (after w default_func history).
Proof.
  unfold after.
  assert (Hinit : keys_are_classes (trait default_func)).
  { split; intros ? ? H; cbn in H; rewrite lookup_empty in H; discriminate. }
  revert Hinit. generalize (trait default_func).
  induction history as [|ev history IH]; intros self Hkeys; [exact Hkeys|].
  cbn [fold_left]. apply IH. apply step_keys. exact Hkeys.
Qed.

(** X8: registering one implementation for a built-in union registers it
    for every member, so a one-argument call on an object whose MRO reaches
    a member before any class registered earlier invokes it. *)
Theorem union_registration (self : TraitDispatcher) (a b : tid) (rest : list tid)
    (func : pyfunc) (obj : pyval) (pre post : list tid) (m : tid) :
  m ∈ a :: b :: rest ->
  mro w (type_of obj) = pre ++ m :: post ->
  (forall x, x ∈ pre -> _registry_single self !! TClass x = None) ->
  let registered := step w self (EvImpl [TUnion a b rest] func) in
  (forall c, c ∈ a :: b :: rest -> _registry_single registered !! TClass c = Some func) /\
  cr_outcome (call w registered [obj]) = Invokes func [obj].
Proof.
  intros Hm Hmro Hpre registered.
  assert (Hunwrap : _unwrap_types w [TUnion a b rest] = map TClass (a :: b :: rest)).
  { cbn [_unwrap_types]. rewrite app_nil_r. reflexivity. }
  split.
  - intros c Hc. subst registered. unfold step, impl. cbn [length Nat.ltb Nat.leb].
    cbn [_registry_single]. rewrite register_all_lookup, Hunwrap.
    rewrite bool_decide_eq_true_2; [reflexivity|]. apply list_elem_of_fmap. eauto.
  - apply call_after_single_registration with (t := m) (pre := pre) (post := post).
    + cbn [length]. lia.
    + rewrite Hunwrap. apply list_elem_of_fmap. eauto.
    + exact Hmro.
    + exact Hpre.
Qed.

End RegistryInvariants.

Lemma union_registration_witness :
  let registered :=
    step Examples.hierarchy (trait Examples.fallback)
      (EvImpl [TUnion Examples.Base int_t []] Examples.on_Base) in
  Examples.Base ∈ [Examples.Base; int_t] /\
  cr_outcome (call Examples.hierarchy registered [Examples.an_A])
    = Invokes Examples.on_Base [Examples.an_A].
Proof.
  intros registered.
  assert (Hm : Examples.Base ∈ [Examples.Base; int_t]) by (by left).
  split; [exact Hm|].
  apply (proj2 (union_registration Examples.hierarchy (trait Examples.fallback)
                  Examples.Base int_t [] Examples.on_Base Examples.an_A
                  [Examples.A] [object_t] Examples.Base Hm eq_refl
                  (fun x _ => lookup_empty _))).
Defined.

(** * Further properties of [cases] *)

Section Declaration.

Lemma is_existing_class_alias (w : World) (a : annotation) :
  _is_existing_class w a = is_alias a.
Proof.
  unfold _is_existing_class, is_alias. destruct a as [c| |text]; cbn.
  - rewrite andb_true_r. reflexivity.
  - reflexivity.
  - reflexivity.
Qed.

Lemma unit_variant_not_alias (a : annotation) :
  _is_unit_variant a = true -> is_alias a = false.
Proof. destruct a; cbn; [intros ->; reflexivity | discriminate ..]. Qed.

Lemma create_variant_class (w : World) (name parent : string) (a : annotation) :
  fst (fst (_create_variant name a parent w)) = variant_class_of a (next_tid w) /\
  next_tid (snd (_create_variant name a parent w)) =
    (if is_alias a then next_tid w else S (next_tid w)).
Proof.
  unfold _create_variant. rewrite is_existing_class_alias.
  destruct a as [c| |text]; cbn; [|split; reflexivity ..].
  destruct (bool_decide (c = NoneType_t)); cbn; split; reflexivity.
Qed.

Lemma unit_new_next_tid (w : World) (c : tid) : next_tid (snd (unit_new c w)) = next_tid w.
Proof. unfold unit_new. destruct (class_getattr w c "_instance"); reflexivity. Qed.

Lemma cases_step_types (cls : tid) (name : string) (a : annotation) (st : loop_state) :
  variant_types (cases_step cls (name, a) st) =
    variant_types st ++ [variant_class_of a (next_tid (world st))] /\
  map fst (variants (cases_step cls (name, a) st)) = map fst (variants st) ++ [name] /\
  next_tid (world (cases_step cls (name, a) st)) =
    (if is_alias a then next_tid (world st) else S (next_tid (world st))).
Proof.
  unfold cases_step.
  pose proof (create_variant_class (world st) name (name_of (world st) cls) a) as [Hc Hn].
  destruct (_create_variant name a (name_of (world st) cls) (world st)) as [[vc sing] w1].
  cbn [fst snd] in Hc, Hn. subst vc. cbn [variant_types variants world].
  split; [reflexivity|]. split; [rewrite map_app; reflexivity|].
  destruct sing; [|exact Hn].
  pose proof (unit_new_next_tid w1 (variant_class_of a (next_tid (world st)))) as Hu.
  destruct (unit_new (variant_class_of a (next_tid (world st))) w1) as [inst w2].
  cbn [snd] in Hu. cbn [class_setattr next_tid]. congruence.
Qed.

Lemma cases_loop_types (cls : tid) (annotations : list (string * annotation))
    (st : loop_state) :
  variant_types (cases_loop cls annotations st) =
    variant_types st ++ expected_variant_types (next_tid (world st)) annotations /\
  map fst (variants (cases_loop cls annotations st)) =
    map fst (variants st) ++ map fst annotations.
Proof.
  revert st. induction annotations as [|[name a] rest IH]; intros st.
  - cbn. rewrite !app_nil_r. split; reflexivity.
  - cbn [cases_loop fold_left]. fold (cases_loop cls rest (cases_step cls (name, a) st)).
    destruct (IH (cases_step cls (name, a) st)) as [Ht Hv].
    destruct (cases_step_types cls name a st) as (Ht1 & Hv1 & Hn1).
    rewrite Ht, Hv, Ht1, Hv1, Hn1. cbn [expected_variant_types map fst].
    rewrite <- !app_assoc. split; reflexivity.
Qed.

(** X9: [cases] records every declared variant under its name, in
    declaration order, in [_variants], and the variant classes are one
    newly synthesized class per unit or value variant and the annotated
    class itself for an alias. *)
Theorem cases_records_variants (w : World) (cls : tid)
    (annotations : list (string * annotation)) :
  is_Some (classes w !! cls) ->
  NoDup (map fst annotations) ->
  exists vs,
    class_getattr (cases cls annotations w) cls "_variants" = Some (VVariants vs) /\
    map fst vs = map fst annotations /\
    map snd vs = map TClass (expected_variant_types (next_tid w) annotations) /\
    declared_variant_types cls annotations w = expected_variant_types (next_tid w) annotations.
Proof.
  intros Hcls _.
  destruct (cases_variants_attr w cls annotations Hcls) as (vs & Hget & Hsnd).
  pose proof (cases_loop_types cls annotations
                {| variants := []; variant_types := []; world := w |}) as [Ht Hv].
  cbn [variant_types variants world app map] in Ht, Hv.
  exists vs. split; [exact Hget|].
  assert (Hvs : vs = variants (cases_loop cls annotations
                        {| variants := []; variant_types := []; world := w |})).
  { destruct Hcls as [ci Hci].
    assert (Hst : is_Some (classes (world (cases_loop cls annotations
                    {| variants := []; variant_types := []; world := w |})) !! cls))
      by (apply cases_loop_exists; eauto).
    destruct Hst as [ci' Hci'].
    unfold cases in Hget.
    erewrite class_getattr_own in Hget;
      [ | cbn [class_setattr classes]; rewrite !lookup_alter_eq, Hci'; reflexivity
        | cbn [c_attrs with_attr]; rewrite lookup_insert_ne by discriminate;
          apply lookup_insert_eq ].
    congruence. }
  unfold declared_variant_types in *. rewrite Hsnd, Ht, Hvs, Hv. auto.
Qed.

End Declaration.

Lemma cases_records_variants_witness :
  exists vs,
    class_getattr Examples.payments Examples.PaymentStatus "_variants" = Some (VVariants vs) /\
    map fst vs = ["Pending"; "Authorized"; "Failed"].
Proof.
  destruct (cases_records_variants (snd Examples.with_PaymentStatus) Examples.PaymentStatus
              [("Pending", AnnClass NoneType_t); ("Authorized", AnnAny); ("Failed", AnnAny)])
    as (vs & Hget & Hnames & _).
  - vm_compute. eauto.
  - apply (bool_decide_unpack (NoDup _)). vm_compute. exact I.
  - exists vs. split; [exact Hget | exact Hnames].
Defined.

Section DeclaredVariants.






End DeclaredVariants.


Section ValueVariants.


End ValueVariants.


Section UnitVariants.



End UnitVariants.


Section SynthesizedClasses.

Lemma expected_no_alias (fresh : tid) (annotations : list (string * annotation)) :
  Forall (fun item => is_alias (snd item) = false) annotations ->
  expected_variant_types fresh annotations = seq fresh (length annotations).
Proof.
  intros Hall. revert fresh. induction Hall as [|[n a] rest Ha _ IH]; intros fresh;
    [reflexivity|].
  cbn [snd] in Ha. cbn [expected_variant_types length seq]. rewrite Ha, IH. f_equal.
  destruct a as [c| |text]; try reflexivity. cbn in Ha |- *.
  destruct (bool_decide (c = NoneType_t)); [reflexivity | discriminate].
Qed.

(** X13: when no variant is an alias, the variant classes of a declaration
    are pairwise distinct, one per annotation, and none of them existed
    before the declaration. *)
Theorem synthesized_classes_distinct (w : World) (cls : tid)
    (annotations : list (string * annotation)) :
  reachable w ->
  Forall (fun item => is_alias (snd item) = false) annotations ->
  let vts := declared_variant_types cls annotations w in
  length vts = length annotations /\
  NoDup vts /\
  forall c, c ∈ vts -> classes w !! c = None.
Proof.
  intros Hreach Hall vts.
  pose proof (reachable_invariant w Hreach) as Hinv.
  assert (Hvts : vts = seq (next_tid w) (length annotations)).
  { unfold vts, declared_variant_types.
    destruct (cases_loop_types cls annotations
                {| variants := []; variant_types := []; world := w |}) as [Ht _].
    rewrite Ht. cbn [variant_types world app]. apply expected_no_alias. exact Hall. }
  rewrite Hvts. split; [apply length_seq|]. split; [apply NoDup_seq|].
  intros c Hc. apply elem_of_seq in Hc as [Hge _].
  destruct (classes w !! c) as [ci|] eqn:Hci; [|reflexivity].
  pose proof (inv_fresh w Hinv c (mk_is_Some _ _ Hci)). lia.
Qed.

End SynthesizedClasses.

Lemma synthesized_classes_distinct_witness :
  NoDup (declared_variant_types Examples.PaymentStatus
           [("Pending", AnnClass NoneType_t); ("Authorized", AnnAny); ("Failed", AnnAny)]
           (snd Examples.with_PaymentStatus)).
Proof.
  apply (synthesized_classes_distinct (snd Examples.with_PaymentStatus) Examples.PaymentStatus
           [("Pending", AnnClass NoneType_t); ("Authorized", AnnAny); ("Failed", AnnAny)]).
  - apply (reach_op builtins (OpDefine "PaymentStatus" [object_t]) reach_builtins I).
  - repeat constructor.
Defined.

Section SumTypeRegistration.

Lemma elem_of_dedup_first (seen ts : list tid) (t : tid) :
  t ∈ ts -> t ∉ seen -> t ∈ dedup_first seen ts.
Proof.
  revert seen. induction ts as [|x ts IH]; intros seen Hin Hseen.
  - by apply elem_of_nil in Hin.
  - cbn [dedup_first]. case_bool_decide as Hx.
    + apply IH; [|exact Hseen]. apply elem_of_cons in Hin as [->|Hin]; [contradiction | exact Hin].
    + destruct (decide (t = x)) as [->|Hne]; [by left|]. right.
      apply IH.
      * apply elem_of_cons in Hin as [?|Hin]; [contradiction | exact Hin].
      * intros H. apply elem_of_cons in H as [?|H]; contradiction.
Qed.

Lemma unwrap_declared_sum_type (w : World) (cls : tid)
    (annotations : list (string * annotation)) :
  is_Some (classes w !! cls) ->
  2 <= length (dedup_first [] (declared_variant_types cls annotations w)) ->
  _unwrap_types (cases cls annotations w) [TClass cls] =
  map TClass (dedup_first [] (declared_variant_types cls annotations w)).
Proof.
  intros Hcls Hlen. cbn [_unwrap_types]. rewrite app_nil_r. unfold unwrap_one. cbn [union_attr].
  rewrite (cases_union_attr w cls annotations Hcls). unfold make_union.
  destruct (declared_variant_types cls annotations w) as [|v vts']; [cbn in Hlen; lia|].
  destruct (dedup_first [] (v :: vts')) as [|a [|b r]]; cbn [length] in Hlen; try lia.
  reflexivity.
Qed.

(** X14: registering one implementation for a declared sum type of two or
    more distinct variant classes registers it for every variant class and
    not for the sum type itself, so a one-argument call on an instance of
    any variant class invokes it. *)
Theorem sum_type_registration (w : World) (cls : tid)
    (annotations : list (string * annotation)) (self : TraitDispatcher) (func : pyfunc)
    (obj : pyval) :
  is_Some (classes w !! cls) ->
  let w' := cases cls annotations w in
  let vts := declared_variant_types cls annotations w in
  2 <= length (dedup_first [] vts) ->
  type_of obj ∈ vts ->
  let registered := step w' self (EvImpl [TClass cls] func) in
  (forall c, c ∈ vts -> _registry_single registered !! TClass c = Some func) /\
  (cls ∉ vts ->
   _registry_single registered !! TClass cls = _registry_single self !! TClass cls) /\
  cr_outcome (call w' registered [obj]) = Invokes func [obj].
Proof.
  intros Hcls w' vts Hlen Hobj registered.
  pose proof (unwrap_declared_sum_type w cls annotations Hcls Hlen) as Hunwrap.
  fold w' vts in Hunwrap.
  assert (Hreg : forall t, _registry_single registered !! t =
                           if bool_decide (t ∈ map TClass (dedup_first [] vts))
                           then Some func else _registry_single self !! t).
  { intros t. subst registered. unfold step, impl. cbn [length Nat.ltb Nat.leb].
    cbn [_registry_single]. rewrite register_all_lookup, Hunwrap. reflexivity. }
  assert (Hmem : forall c, c ∈ vts -> TClass c ∈ map TClass (dedup_first [] vts)).
  { intros c Hc. apply list_elem_of_fmap. exists c. split; [reflexivity|].
    apply elem_of_dedup_first; [exact Hc | apply not_elem_of_nil]. }
  split; [|split].
  - intros c Hc. rewrite Hreg, bool_decide_eq_true_2; [reflexivity | apply Hmem; exact Hc].
  - intros Hnot. rewrite Hreg, bool_decide_eq_false_2; [reflexivity|].
    intros Hin. apply list_elem_of_fmap in Hin as (c & [= <-] & Hc). apply Hnot.
    clear -Hc. revert Hc. generalize (@nil tid).
    induction vts as [|x l IH]; intros seen Hc; cbn [dedup_first] in Hc.
    + by apply elem_of_nil in Hc.
    + case_bool_decide.
      * right. eapply IH. exact Hc.
      * apply elem_of_cons in Hc as [->|Hc]; [by left | right; eapply IH; exact Hc].
  - apply call_after_single_registration
      with (t := type_of obj) (pre := []) (post := match classes w' !! type_of obj with
                                                   | Some ci => c_ancestors ci
                                                   | None => []
                                                   end).
    + cbn [length]. lia.
    + rewrite Hunwrap. apply Hmem. exact Hobj.
    + reflexivity.
    + intros x Hx. by apply elem_of_nil in Hx.
Qed.

End SumTypeRegistration.

Lemma sum_type_registration_witness :
  let registered :=
    step Examples.payments (trait Examples.fallback)
      (EvImpl [TClass Examples.PaymentStatus] Examples.on_Base) in
  exists inst w1,
    call_class Examples.Authorized [VStr "tx_123"] Examples.payments = (Ok inst, w1) /\
    cr_outcome (call Examples.payments registered [inst]) = Invokes Examples.on_Base [inst].
Proof.
  intros registered. do 2 eexists. split; [vm_compute; reflexivity|].
  apply (sum_type_registration (snd Examples.with_PaymentStatus) Examples.PaymentStatus
           [("Pending", AnnClass NoneType_t); ("Authorized", AnnAny); ("Failed", AnnAny)]
           (trait Examples.fallback) Examples.on_Base).
  - vm_compute. eauto.
  - vm_compute. lia.
  - vm_compute. right. by left.
Defined.

Section EqualityAndHash.

Variable hash_str : string -> Z.
Variable hash_int : Z -> Z.
Variable hash_none : Z.
Variable hash_type : tyobj -> Z.
Variable hash_id : ref -> Z.
Variable hash_opaque : string -> Z.
Variable hash_tuple : list Z -> Z.

Local Abbreviation hash_of :=
  (py_hash hash_str hash_int hash_none hash_type hash_id hash_opaque hash_tuple).

Lemma py_eq_hash (w : World) (a : pyval) :
  forall b, py_eq w a b = true -> hash_of w a = hash_of w b.
Proof.
  revert a. fix IH 1. intros a b. destruct a as [|z|s|t|r c slot|m|what]; cbn [py_eq].
  - destruct b; try discriminate. reflexivity.
  - destruct b; try discriminate. intros H. apply Z.eqb_eq in H as ->. reflexivity.
  - destruct b; try discriminate. intros H. apply String.eqb_eq in H as ->. reflexivity.
  - destruct b; try discriminate. intros H. apply bool_decide_eq_true_1 in H as ->. reflexivity.
  - destruct (kind_of w c) as [|name parent|name parent] eqn:Hk.
    + destruct b as [| | | |r' c' slot'| |]; try discriminate.
      intros H. apply bool_decide_eq_true_1 in H as [<- <-].
      cbn [py_hash]. rewrite Hk. reflexivity.
    + destruct b as [| | | |r' c' slot'| |]; try discriminate.
      case_bool_decide as Hc; [subst c'|discriminate].
      destruct slot as [p|]; [|discriminate]. destruct slot' as [p'|]; [|discriminate].
      intros H. specialize (IH p p' H).
      cbn [py_hash]. rewrite Hk, IH. reflexivity.
    + destruct b as [| | | |r' c' slot'| |]; try discriminate.
      intros H. apply bool_decide_eq_true_1 in H as <-.
      cbn [py_hash]. rewrite Hk. reflexivity.
  - destruct b; try discriminate. reflexivity.
  - discriminate.
Qed.

(** X15: equality and hashing agree: whenever [a == b] holds, [hash(a)]
    and [hash(b)] give the same number, or fail alike, whatever the hashes
    of the built-in values are.  In particular two value variant instances
    of one class with equal payloads hash alike, as do the instances of a
    unit variant. *)
Theorem equal_values_hash_alike (w : World) (a b : pyval) :
  py_eq w a b = true ->
  py_hash hash_str hash_int hash_none hash_type hash_id hash_opaque hash_tuple w a =
  py_hash hash_str hash_int hash_none hash_type hash_id hash_opaque hash_tuple w b.
Proof. apply py_eq_hash. Qed.

End EqualityAndHash.

Lemma equal_values_hash_alike_witness :
  let hash_str := fun s : string => Z.of_nat (String.length s) in
  let hash_tuple := fun l : list Z => fold_right Z.add 0%Z l in
  py_eq Examples.payments (VInst 1 Examples.Authorized (Some (VStr "tx_123")))
    (VInst 2 Examples.Authorized (Some (VStr "tx_123"))) = true /\
  py_hash hash_str (fun z => z) 0%Z (fun _ => 0%Z) Z.of_nat hash_str hash_tuple
    Examples.payments (VInst 1 Examples.Authorized (Some (VStr "tx_123")))
  = py_hash hash_str (fun z => z) 0%Z (fun _ => 0%Z) Z.of_nat hash_str hash_tuple
      Examples.payments (VInst 2 Examples.Authorized (Some (VStr "tx_123"))).
Proof.
  intros hash_str hash_tuple.
  assert (Heq : py_eq Examples.payments (VInst 1 Examples.Authorized (Some (VStr "tx_123")))
                  (VInst 2 Examples.Authorized (Some (VStr "tx_123"))) = true)
    by (vm_compute; reflexivity).
  split; [exact Heq|].
  exact (equal_values_hash_alike hash_str (fun z => z) 0%Z (fun _ => 0%Z) Z.of_nat
           hash_str hash_tuple Examples.payments _ _ Heq).
Defined.

Section UnwrapShape.

Variable w : World.

Lemma unwrap_types_app (l1 l2 : list tyobj) :
  _unwrap_types w (l1 ++ l2) = _unwrap_types w l1 ++ _unwrap_types w l2.
Proof.
  induction l1 as [|t l1 IH]; [reflexivity|].
  cbn [app _unwrap_types]. rewrite IH, app_assoc. reflexivity.
Qed.

Lemma unwrap_types_length (l : list tyobj) : length l <= length (_unwrap_types w l).
Proof.
  induction l as [|t l IH]; [reflexivity|]. cbn [_unwrap_types length].
  rewrite length_app. pose proof (unwrap_one_nonempty w t) as Hne.
  destruct (unwrap_one w t); [congruence | cbn [length]; lia].
Qed.

(** X16: unwrapping works type by type and keeps the order: the result for
    a concatenation is the concatenation of the results; every type of the
    input contributes at least one class, so nothing is dropped, and the
    result holds classes only. *)
Theorem unwrap_types_shape (l1 l2 : list tyobj) :
  _unwrap_types w (l1 ++ l2) = _unwrap_types w l1 ++ _unwrap_types w l2 /\
  length l1 <= length (_unwrap_types w l1) /\
  (forall t, t ∈ _unwrap_types w l1 -> is_union t = false).
Proof.
  split; [apply unwrap_types_app|]. split; [apply unwrap_types_length|].
  intros t. apply unwrap_types_classes.
Qed.

End UnwrapShape.

Section EmptyDeclaration.

(** X17: decorating a class without annotations synthesizes nothing: the
    class gets an empty [_variants] and a [_union] of None, every other
    class is untouched, and unwrapping the class returns it unchanged. *)
Theorem cases_without_annotations (w : World) (cls : tid) :
  is_Some (classes w !! cls) ->
  let w' := cases cls [] w in
  class_getattr w' cls "_variants" = Some (VVariants []) /\
  class_getattr w' cls "_union" = Some VNone /\
  next_tid w' = next_tid w /\
  (forall c, c <> cls -> classes w' !! c = classes w !! c) /\
  _unwrap_types w' [TClass cls] = [TClass cls].
Proof.
  intros [ci Hci] w'. unfold w', cases. cbn [cases_loop fold_left variants variant_types world].
  assert (Hunion : class_getattr
                     (class_setattr cls "_union" VNone
                        (class_setattr cls "_variants" (VVariants []) w)) cls "_union"
                   = Some VNone).
  { apply class_getattr_setattr_eq. apply class_setattr_exists. eauto. }
  split; [|split; [exact Hunion|split; [reflexivity|split]]].
  - eapply class_getattr_own.
    + apply setattr_entry, setattr_entry. exact Hci.
    + cbn [with_attr c_attrs]. rewrite lookup_insert_ne by discriminate. apply lookup_insert_eq.
  - intros c Hne. rewrite !setattr_frame by congruence. reflexivity.
  - cbn [_unwrap_types]. rewrite app_nil_r. unfold unwrap_one. cbn [union_attr].
    rewrite Hunion. reflexivity.
Qed.

End EmptyDeclaration.

Lemma cases_without_annotations_witness :
  class_getattr (cases Examples.Box [] (snd Examples.with_Box)) Examples.Box "_union"
    = Some VNone /\
  _unwrap_types (cases Examples.Box [] (snd Examples.with_Box)) [TClass Examples.Box]
    = [TClass Examples.Box].
Proof.
  destruct (cases_without_annotations (snd Examples.with_Box) Examples.Box)
    as (_ & Hunion & _ & _ & Hunwrap).
  - vm_compute. eauto.
  - split; [exact Hunion | exact Hunwrap].
Defined.

Section VariantEquality.


End VariantEquality.

